(** * A growable byte stack (src/stack.c), embedded in Rocq

    The C file implements a byte stack on top of a heap block that grows by
    [realloc].  The embedding keeps the shape of the C code:

    - [unsigned long] values are integers of [Z] reduced modulo [2 ^ w];
    - the heap is a finite map from block identifiers to byte lists, a
      pointer is a block identifier and [p[i]] is position [i] of block [p];
    - the functions are written in a state monad over the [World], which
      holds the [Stack] object that the [Stack *stack] argument points to,
      the heap, and the number of times the configuration was consulted;
    - an access outside a block (undefined behaviour in C) raises the sticky
      [fault] flag of the world and has no other effect on the heap; the
      correctness theorems show that the flag stays down;
    - the [while] loop of [pushToStack] need not terminate (the expansion
      step may be zero), so it is given fuel. *)

From Stdlib Require Import ZArith Lia.
From Stdlib.Strings Require Import Byte.
From stdpp Require Import base option list gmap.

Local Open Scope Z_scope.

(** ** Data *)

(** Modelled from the spec: stack.h is not part of the sources.  The field
    order follows the positional initializer of [newStack], the names follow
    the field accesses of stack.c, and the two counters are fixed-width
    unsigned integers ([unsigned long], as the loop counters of stack.c). *)
Record Stack := mkStack {
  dataSize : Z;        (* capacity of the backing store, in bytes *)
  stackPointer : Z;    (* number of live bytes, offset of the next free byte *)
  data : nat           (* pointer to the backing store *)
}.

(** Modelled from the spec: config.h is not part of the sources.  The
    configuration provider supplies two integers; it may be reconfigured at
    run time, so the program is given the configuration in force at each of
    its successive consultations. *)
Record Config := mkConfig {
  initialStackSize : Z;
  stackExpansionStepSize : Z
}.

Record World := mkWorld {
  stack : Stack;                  (* the object behind [Stack *stack] *)
  heap : gmap nat (list byte);    (* allocated blocks *)
  next : nat;                     (* the next block the allocator hands out *)
  consults : nat;                 (* configuration consultations so far *)
  fault : bool                    (* an access left its block *)
}.

(** ** State monads *)

Definition M (A : Type) : Type := World -> A * World.

Definition ret {A} (a : A) : M A := fun σ => (a, σ).

Definition bind {A B} (m : M A) (f : A -> M B) : M B :=
  fun σ => let (a, σ') := m σ in f a σ'.

(** Computations that may run out of fuel. *)
Definition MO (A : Type) : Type := World -> option (A * World).

Definition retO {A} (a : A) : MO A := fun σ => Some (a, σ).

Definition bindO {A B} (m : MO A) (f : A -> MO B) : MO B :=
  fun σ => match m σ with
           | Some (a, σ') => f a σ'
           | None => None
           end.

Definition lift {A} (m : M A) : MO A := fun σ => Some (m σ).

Declare Scope monad_scope.
Delimit Scope monad_scope with monad.
Notation "x <- m ;; k" := (bind m (fun x => k))
  (at level 100, m at next level, right associativity) : monad_scope.
Notation "m ;; k" := (bind m (fun _ => k))
  (at level 100, right associativity) : monad_scope.
Notation "x <-? m ;; k" := (bindO m (fun x => k))
  (at level 100, m at next level, right associativity) : monad_scope.
Notation "m ;;? k" := (bindO m (fun _ => k))
  (at level 100, right associativity) : monad_scope.
Local Open Scope monad_scope.

(** [for (unsigned long i = first; i < first + k; i++) body(i)] *)
Fixpoint for_ (k : nat) (i : Z) (body : Z -> M unit) : M unit :=
  match k with
  | O => ret tt
  | S k' => body i ;; for_ k' (i + 1) body
  end.

Fixpoint forO_ (k : nat) (i : Z) (body : Z -> MO unit) : MO unit :=
  match k with
  | O => retO tt
  | S k' => body i ;;? forO_ k' (i + 1) body
  end.

(** ** Accessors for the [Stack] object *)

Definition withStack (s : Stack) (σ : World) : World :=
  mkWorld s (heap σ) (next σ) (consults σ) (fault σ).

Definition withHeap (h : gmap nat (list byte)) (σ : World) : World :=
  mkWorld (stack σ) h (next σ) (consults σ) (fault σ).

Definition raise (σ : World) : World :=
  mkWorld (stack σ) (heap σ) (next σ) (consults σ) true.

Definition getStack : M Stack := fun σ => (stack σ, σ).

Definition setDataSize (v : Z) : M unit := fun σ =>
  (tt, withStack (mkStack v (stackPointer (stack σ)) (data (stack σ))) σ).

Definition setStackPointer (v : Z) : M unit := fun σ =>
  (tt, withStack (mkStack (dataSize (stack σ)) v (data (stack σ))) σ).

Definition setData (p : nat) : M unit := fun σ =>
  (tt, withStack (mkStack (dataSize (stack σ)) (stackPointer (stack σ)) p) σ).

(** ** Memory accesses *)

(** Position [i] lies within the block [bs]. *)
Definition within (bs : list byte) (i : Z) : Prop :=
  0 <= i < Z.of_nat (length bs).

(** [p[i]] as an rvalue. *)
Definition load (p : nat) (i : Z) : M byte := fun σ =>
  match heap σ !! p with
  | Some bs =>
      if decide (within bs i)
      then (default x00 (bs !! Z.to_nat i), σ)
      else (x00, raise σ)
  | None => (x00, raise σ)
  end.

(** [p[i] = b]. *)
Definition store (p : nat) (i : Z) (b : byte) : M unit := fun σ =>
  match heap σ !! p with
  | Some bs =>
      if decide (within bs i)
      then (tt, withHeap (<[p := <[Z.to_nat i := b]> bs]> (heap σ)) σ)
      else (tt, raise σ)
  | None => (tt, raise σ)
  end.

(** ** Byte ranges *)

(** The block [bs] with positions [lo, hi) set to zero. *)
Definition cleared (lo hi : nat) (bs : list byte) : list byte :=
  take lo bs ++ replicate (hi - lo) x00 ++ drop hi bs.

(** The first [j] positions of [out] overwritten with those of [src]. *)
Definition filled (j : nat) (src out : list byte) : list byte :=
  take j src ++ drop j out.

(** ** A concrete run: 64-bit counters, sizes 4 and 4 *)

Definition exampleConfig : nat -> Config := fun _ => mkConfig 4 4.

Definition exampleJunk : nat -> nat -> byte := fun _ _ => "?"%byte.

(** The initializers of [newStack] evaluated as they are written. *)
Definition exampleOrder : nat -> bool := fun _ => true.

(** The world after "AB" was pushed on a new stack: block 0 is the backing
    store, block 1 is a caller's buffer holding "CDE". *)
Definition exampleWorld : World :=
  mkWorld (mkStack 4 2 0)
          (<[0%nat := ["A"; "B"; "?"; "?"]%byte]>
             (<[1%nat := ["C"; "D"; "E"]%byte]> ∅))
          2 2 false.

(** The same stack when it is full: "ABCD" in a block of four bytes. *)
Definition exampleFull : World :=
  mkWorld (mkStack 4 4 0)
          (<[0%nat := ["A"; "B"; "C"; "D"]%byte]> ∅)
          1 2 false.

(** A world in which no stack was created yet. *)
Definition exampleStart : World :=
  mkWorld (mkStack 0 0 0) (<[1%nat := ["C"; "D"; "E"]%byte]> ∅) 2 0 false.

Section Program.

(** Width of [unsigned long]. *)
Variable w : positive.

(** The configuration in force at the k-th consultation. *)
Variable config : nat -> Config.

(** Contents of freshly allocated memory: byte [i] of block [p]. *)
Variable junk : nat -> nat -> byte.

(** C does not order the evaluation of the initializers of a compound
    literal.  [capacityFirst k] tells, for a [newStack] that starts at
    consultation [k], whether the initializer of the capacity is evaluated
    before the initializer of the pointer or after it. *)
Variable capacityFirst : nat -> bool.

Definition modulus : Z := 2 ^ Z.pos w.

Definition wrap (z : Z) : Z := z mod modulus.

(** *** The allocator.  It always succeeds; stack.c never checks for NULL. *)

Definition fresh (p : nat) (lo n : nat) : list byte :=
  map (junk p) (seq lo n).

Definition malloc (n : Z) : M nat := fun σ =>
  let p := next σ in
  (p, mkWorld (stack σ) (<[p := fresh p 0 (Z.to_nat n)]> (heap σ))
              (S p) (consults σ) (fault σ)).

(** [realloc] moves the block: the old pointer dies, the first
    [min old new] bytes are carried over, the rest is fresh memory. *)
Definition resized (q : nat) (n : nat) (old : list byte) : list byte :=
  take n old ++ fresh q (length old) (n - length old).

Definition realloc (p : nat) (n : Z) : M nat := fun σ =>
  let q := next σ in
  match heap σ !! p with
  | Some old =>
      (q, mkWorld (stack σ)
                  (<[q := resized q (Z.to_nat n) old]> (delete p (heap σ)))
                  (S q) (consults σ) (fault σ))
  | None =>
      (q, mkWorld (stack σ) (<[q := fresh q 0 (Z.to_nat n)]> (heap σ))
                  (S q) (consults σ) true)
  end.

Definition free (p : nat) : M unit := fun σ =>
  match heap σ !! p with
  | Some _ => (tt, withHeap (delete p (heap σ)) σ)
  | None => (tt, raise σ)
  end.

(** *** The configuration provider (config.h)

    Its two functions are not part of the sources: each call reads the
    configuration in force at that consultation, [config], and converts
    the value to [unsigned long]. *)

Definition consult (f : Config -> Z) : M Z := fun σ =>
  (wrap (f (config (consults σ))),
   mkWorld (stack σ) (heap σ) (next σ) (S (consults σ)) (fault σ)).

Definition getInitialStackSize : M Z := consult initialStackSize.

Definition getStackExpansionStepSize : M Z := consult stackExpansionStepSize.

(** *** stack.c *)

(** [return (Stack) {getInitialStackSize(), 0, malloc(getInitialStackSize())};]
    with the first and the third initializer evaluated in either order. *)
Definition newStack : M Stack := fun σ =>
  if capacityFirst (consults σ) then
    (size <- getInitialStackSize ;;
     size' <- getInitialStackSize ;;
     p <- malloc size' ;;
     ret (mkStack size 0 p)) σ
  else
    (size' <- getInitialStackSize ;;
     p <- malloc size' ;;
     size <- getInitialStackSize ;;
     ret (mkStack size 0 p)) σ.

(** One turn of the [while] loop of [pushToStack]:
    [stack->dataSize += getStackExpansionStepSize();
     stack->data = realloc(stack->data, stack->dataSize);] *)
Definition growStep : M unit :=
  step <- getStackExpansionStepSize ;;
  s <- getStack ;;
  setDataSize (wrap (dataSize s + step)) ;;
  s <- getStack ;;
  p <- realloc (data s) (dataSize s) ;;
  setData p.

(** [while (stack->stackPointer >= stack->dataSize) { ... }] *)
Fixpoint grow (fuel : nat) : MO unit := fun σ =>
  if decide (dataSize (stack σ) <= stackPointer (stack σ)) then
    match fuel with
    | O => None
    | S fuel' => (lift growStep ;;? grow fuel') σ
    end
  else Some (tt, σ).

(** [stack->data[stack->stackPointer++] = data[i];] *)
Definition pushByte (input : nat) (i : Z) : M unit :=
  s <- getStack ;;
  b <- load input i ;;
  store (data s) (stackPointer s) b ;;
  setStackPointer (wrap (stackPointer s + 1)).

Definition pushToStack (fuel : nat) (input : nat) (n : Z) : MO unit :=
  forO_ (Z.to_nat n) 0 (fun i => grow fuel ;;? lift (pushByte input i)).

(** [stack->data[--stack->stackPointer] = 0;] *)
Definition dropByte : M unit :=
  s <- getStack ;;
  setStackPointer (wrap (stackPointer s - 1)) ;;
  s <- getStack ;;
  store (data s) (stackPointer s) x00.

Definition popStackWithoutBuffer (n : Z) : M unit :=
  for_ (Z.to_nat n) 0 (fun _ => dropByte).

(** [buffer[i] = stack->data[--stack->stackPointer];
     stack->data[stack->stackPointer] = 0;] *)
Definition popByte (buffer : nat) (i : Z) : M unit :=
  s <- getStack ;;
  setStackPointer (wrap (stackPointer s - 1)) ;;
  s <- getStack ;;
  b <- load (data s) (stackPointer s) ;;
  store buffer i b ;;
  s <- getStack ;;
  store (data s) (stackPointer s) x00.

Definition popStackToBuffer (buffer : nat) (n : Z) : M unit :=
  for_ (Z.to_nat n) 0 (popByte buffer).

Definition popStack (n : Z) : M nat :=
  p <- malloc n ;;
  popStackToBuffer p n ;;
  ret p.

(** [slice[i] = stack->data[from + i];] *)
Definition copyByte (slice : nat) (from : Z) (i : Z) : M unit :=
  s <- getStack ;;
  b <- load (data s) (wrap (from + i)) ;;
  store slice i b.

Definition getStackSlice (from to : Z) : M nat :=
  slice <- malloc (wrap (to - from)) ;;
  for_ (Z.to_nat (wrap (to - from))) 0 (copyByte slice from) ;;
  ret slice.

Definition destroyStack : M unit :=
  s <- getStack ;;
  free (data s).

(** [Stack st = newStack();] in a caller. *)
Definition create : M unit :=
  s <- newStack ;;
  fun σ => (tt, withStack s σ).



(** ** Specification vocabulary *)

(** The sum of the [g] expansion steps read from consultation [c] on. *)
Fixpoint steps (c : nat) (g : nat) : Z :=
  match g with
  | O => 0
  | S g' => stackExpansionStepSize (config c) + steps (S c) g'
  end.

(** The allocator has not handed out a block at or after [next]. *)
Definition Allocated (σ : World) : Prop :=
  map_Forall (fun p (_ : list byte) => (p < next σ)%nat) (heap σ).

(** The [Stack] object owns the block [bs] of [dataSize] bytes. *)
Definition Owns (σ : World) (bs : list byte) : Prop :=
  heap σ !! data (stack σ) = Some bs /\
  Z.of_nat (length bs) = dataSize (stack σ) /\
  0 <= stackPointer (stack σ) < modulus /\
  dataSize (stack σ) < modulus /\
  fault σ = false /\
  Allocated σ.

(** A Live ByteStack: it owns its block and [length <= capacity]. *)
Definition Live (σ : World) (bs : list byte) : Prop :=
  Owns σ bs /\ stackPointer (stack σ) <= dataSize (stack σ).

(** The counters alone, as the fields of a Live stack constrain them. *)
Definition Counters (σ : World) : Prop :=
  0 <= stackPointer (stack σ) <= dataSize (stack σ) /\
  dataSize (stack σ) < modulus.

(** The counters after [j] bytes were popped from [σ]. *)
Definition popped (σ : World) (j : Z) (σ' : World) : Prop :=
  stack σ' = mkStack (dataSize (stack σ))
                     (wrap (stackPointer (stack σ) - j))
                     (data (stack σ)) /\
  consults σ' = consults σ /\
  next σ' = next σ.

(** The expansion steps are positive and adding one to a capacity of at
    most [B] bytes does not overflow [unsigned long]. *)
Definition ConfigOK (B : Z) : Prop :=
  forall k, 0 < stackExpansionStepSize (config k) /\
            B + stackExpansionStepSize (config k) <= modulus.

(** Result of a push on the counters: [n] bytes more, a capacity grown by
    the [g] expansion steps read from the configuration in the meantime. *)
Definition pushed (σ : World) (n : Z) (σ' : World) : Prop :=
  Counters σ' /\
  stackPointer (stack σ') = stackPointer (stack σ) + n /\
  dataSize (stack σ) <= dataSize (stack σ') /\
  exists g, consults σ' = (consults σ + g)%nat /\
            dataSize (stack σ') = dataSize (stack σ) + steps (consults σ) g.

(** Blocks other than the stack's survive and remain other blocks. *)
Definition others_kept (σ σ' : World) : Prop :=
  forall p blk, p <> data (stack σ) -> heap σ !! p = Some blk ->
    heap σ' !! p = Some blk /\ p <> data (stack σ').

(** The live bytes, most recently pushed first. *)
Definition topFirst (σ : World) (bs : list byte) : list byte :=
  reverse (take (Z.to_nat (stackPointer (stack σ))) bs).

(** The [k] slots that a pop of [k] bytes from [σ] vacated read as zero in
    [σ'], in the backing store and through a slice of exactly these slots. *)
Definition vacated (k : Z) (σ σ' : World) : Prop :=
  let sp := stackPointer (stack σ) in
  stackPointer (stack σ') = sp - k /\
  (exists bs', heap σ' !! data (stack σ') = Some bs' /\
     forall i, sp - k <= i < sp -> bs' !! Z.to_nat i = Some x00) /\
  let r := getStackSlice (sp - k) sp σ' in
  heap r.2 !! r.1 = Some (replicate (Z.to_nat k) x00).

(** The consultations that a [newStack] starting in [σ] uses for the
    capacity field and for the size of the block. *)
Definition capacityIndex (σ : World) : nat :=
  if capacityFirst (consults σ) then consults σ else S (consults σ).

Definition blockIndex (σ : World) : nat :=
  if capacityFirst (consults σ) then S (consults σ) else consults σ.

(** A computation that never lowers the [fault] flag. *)
Definition sticky {A} (m : M A) : Prop :=
  forall σ, fault σ = true -> fault (m σ).2 = true.

(** ** Sequences of operations *)

Inductive Op : Type :=
  | Push (input : nat) (n : Z)
  | PopDiscard (n : Z)
  | PopInto (buffer : nat) (n : Z)
  | Pop (n : Z)
  | Slice (from to : Z).

Definition exec (fuel : nat) (op : Op) : MO unit :=
  match op with
  | Push input n => pushToStack fuel input n
  | PopDiscard n => lift (popStackWithoutBuffer n)
  | PopInto buffer n => lift (popStackToBuffer buffer n)
  | Pop n => lift (popStack n ;; ret tt)
  | Slice from to => lift (getStackSlice from to ;; ret tt)
  end.

Fixpoint run (fuel : nat) (ops : list Op) : MO unit :=
  match ops with
  | [] => retO tt
  | op :: rest => exec fuel op ;;? run fuel rest
  end.

Definition pushedBytes (op : Op) : Z :=
  match op with Push _ n => n | _ => 0 end.

Definition poppedBytes (op : Op) : Z :=
  match op with
  | PopDiscard n | PopInto _ n | Pop n => n
  | _ => 0
  end.

Definition total (f : Op -> Z) (ops : list Op) : Z :=
  foldr (fun op acc => f op + acc) 0 ops.

(** Every pop takes at most the current length [len]; no push brings the
    length above [B]. *)
Fixpoint admissible (B : Z) (len : Z) (ops : list Op) : Prop :=
  match ops with
  | [] => True
  | op :: rest =>
      0 <= pushedBytes op /\ 0 <= poppedBytes op <= len /\
      len + pushedBytes op <= B /\
      admissible B (len + pushedBytes op - poppedBytes op) rest
  end.

(** The operation is called within its contract in the world [σ]: a push
    reads a whole block that is not the backing store and stays below [B];
    a pop takes at most the length, into a buffer that is large enough and
    is not the backing store; a slice stays within the capacity. *)
Definition inContract (B : Z) (op : Op) (σ : World) : Prop :=
  match op with
  | Push input n =>
      exists bytes, heap σ !! input = Some bytes /\
        n = Z.of_nat (length bytes) /\ input <> data (stack σ) /\
        stackPointer (stack σ) + n <= B
  | PopDiscard n | Pop n => 0 <= n <= stackPointer (stack σ)
  | PopInto buffer n =>
      0 <= n <= stackPointer (stack σ) /\
      exists out, heap σ !! buffer = Some out /\
        buffer <> data (stack σ) /\ (Z.to_nat n <= length out)%nat
  | Slice from to => 0 <= from <= to /\ to <= dataSize (stack σ)
  end.

(** ** Arithmetic of [unsigned long] *)

Lemma modulus_pos : 0 < modulus.
Proof. unfold modulus. apply Z.pow_pos_nonneg; lia. Qed.

Lemma wrap_small z : 0 <= z < modulus -> wrap z = z.
Proof. intros H. unfold wrap. apply Z.mod_small. exact H. Qed.

Lemma wrap_range z : 0 <= wrap z < modulus.
Proof. unfold wrap. apply Z.mod_pos_bound. apply modulus_pos. Qed.

Lemma wrap_pred a j : wrap (wrap (a - j) - 1) = wrap (a - (j + 1)).
Proof.
  unfold wrap. rewrite Zminus_mod_idemp_l. f_equal. lia.
Qed.

(** ** Loop rules *)

Lemma for_inv (P : nat -> World -> Prop) (body : Z -> M unit) k i σ :
  P O σ ->
  (forall j σ1, (j < k)%nat -> P j σ1 -> P (S j) (body (i + Z.of_nat j) σ1).2) ->
  P k (for_ k i body σ).2.
Proof.
  revert P i σ. induction k as [|k IH]; intros P i σ H0 Hstep.
  - exact H0.
  - simpl. unfold bind. destruct (body i σ) as [u σ1] eqn:E.
    apply (IH (fun j => P (S j))).
    + specialize (Hstep O σ ltac:(lia) H0).
      replace (i + Z.of_nat 0) with i in Hstep by lia.
      rewrite E in Hstep. exact Hstep.
    + intros j σ2 Hj HP.
      replace (i + 1 + Z.of_nat j) with (i + Z.of_nat (S j)) by lia.
      apply Hstep; [lia | exact HP].
Qed.

Lemma forO_inv (P : nat -> World -> Prop) (body : Z -> MO unit) k i σ :
  P O σ ->
  (forall j σ1, (j < k)%nat -> P j σ1 ->
     exists σ2, body (i + Z.of_nat j) σ1 = Some (tt, σ2) /\ P (S j) σ2) ->
  exists σ', forO_ k i body σ = Some (tt, σ') /\ P k σ'.
Proof.
  revert P i σ. induction k as [|k IH]; intros P i σ H0 Hstep.
  - exists σ. split; [reflexivity | exact H0].
  - destruct (Hstep O σ ltac:(lia) H0) as (σ1 & E & H1).
    replace (i + Z.of_nat 0) with i in E by lia.
    destruct (IH (fun j => P (S j)) (i + 1) σ1 H1) as (σ' & E' & H').
    + intros j σ2 Hj HP.
      replace (i + 1 + Z.of_nat j) with (i + Z.of_nat (S j)) by lia.
      apply Hstep; [lia | exact HP].
    + exists σ'. split; [|exact H'].
      simpl. unfold bindO. rewrite E. exact E'.
Qed.

Lemma forO_kept (P : World -> Prop) (body : Z -> MO unit) k : forall i σ σ',
  P σ ->
  (forall j σ1 σ2, P σ1 -> body j σ1 = Some (tt, σ2) -> P σ2) ->
  forO_ k i body σ = Some (tt, σ') -> P σ'.
Proof.
  induction k as [|k IH]; intros i σ σ' H0 Hstep E.
  - injection E as <-. exact H0.
  - simpl in E. unfold bindO in E.
    destruct (body i σ) as [[[] σ1]|] eqn:E1; [|discriminate].
    exact (IH (i + 1) σ1 σ' (Hstep i σ σ1 H0 E1) Hstep E).
Qed.

(** ** What the memory accesses leave alone *)

Lemma store_frame p i b σ :
  stack (store p i b σ).2 = stack σ /\
  next (store p i b σ).2 = next σ /\
  consults (store p i b σ).2 = consults σ.
Proof.
  unfold store. destruct (heap σ !! p); [case_decide|]; simpl; auto.
Qed.

Lemma load_frame p i σ :
  stack (load p i σ).2 = stack σ /\
  next (load p i σ).2 = next σ /\
  consults (load p i σ).2 = consults σ /\
  heap (load p i σ).2 = heap σ.
Proof.
  unfold load. destruct (heap σ !! p) as [bs|]; [case_decide|];
    simpl; auto.
Qed.

Lemma store_hit p i b bs σ :
  heap σ !! p = Some bs -> 0 <= i -> (Z.to_nat i < length bs)%nat ->
  store p i b σ = (tt, withHeap (<[p := <[Z.to_nat i := b]> bs]> (heap σ)) σ).
Proof.
  intros H H0 Hi. unfold store. rewrite H.
  rewrite decide_True by (unfold within; lia). reflexivity.
Qed.

Lemma load_hit p i b bs σ :
  heap σ !! p = Some bs -> 0 <= i -> bs !! Z.to_nat i = Some b ->
  load p i σ = (b, σ).
Proof.
  intros H H0 Hi. pose proof (lookup_lt_Some _ _ _ Hi) as Hlt.
  unfold load. rewrite H, Hi.
  rewrite decide_True by (unfold within; lia). reflexivity.
Qed.

(** ** The counters, independently of the memory *)

Lemma popped_zero σ :
  0 <= stackPointer (stack σ) < modulus -> popped σ 0 σ.
Proof.
  intros H. unfold popped. rewrite Z.sub_0_r, wrap_small by exact H.
  destruct σ as [[ds sp d] h nx c f]. simpl. auto.
Qed.

Lemma dropByte_popped σ0 j σ :
  popped σ0 j σ -> popped σ0 (j + 1) (dropByte σ).2.
Proof.
  intros (Hs & Hc & Hn). unfold dropByte, bind, getStack, setStackPointer.
  simpl.
  match goal with |- popped _ _ (store ?p ?i ?b ?s).2 =>
    destruct (store_frame p i b s) as (Es & En & Ec) end.
  unfold popped. rewrite Es, En, Ec. simpl. rewrite Hs. simpl.
  rewrite wrap_pred. auto.
Qed.

Lemma popByte_popped buffer i σ0 j σ :
  popped σ0 j σ -> popped σ0 (j + 1) (popByte buffer i σ).2.
Proof.
  intros (Hs & Hc & Hn). unfold popByte, bind, getStack, setStackPointer.
  simpl.
  match goal with |- context [load ?p ?i ?s] =>
    destruct (load_frame p i s) as (Ls & Ln & Lc & Lh);
    destruct (load p i s) as [b σ1] end.
  simpl in *.
  match goal with |- context [store buffer ?i ?b ?s] =>
    destruct (store_frame buffer i b s) as (Es & En & Ec);
    destruct (store buffer i b s) as [[] σ2] end.
  simpl in *.
  match goal with |- popped _ _ (store ?p ?i ?b ?s).2 =>
    destruct (store_frame p i b s) as (Fs & Fn & Fc) end.
  unfold popped. rewrite Fs, Fn, Fc, Es, En, Ec, Ls, Ln, Lc. simpl.
  rewrite Hs. simpl. rewrite wrap_pred. auto.
Qed.

Lemma popStackWithoutBuffer_popped n σ :
  0 <= stackPointer (stack σ) < modulus -> 0 <= n ->
  popped σ n (popStackWithoutBuffer n σ).2.
Proof.
  intros Hsp Hn. unfold popStackWithoutBuffer.
  rewrite <- (Z2Nat.id n) at 1 by exact Hn.
  apply (for_inv (fun j => popped σ (Z.of_nat j))).
  - apply popped_zero, Hsp.
  - intros j σ1 _ H. rewrite Nat2Z.inj_succ, <- Z.add_1_r.
    apply dropByte_popped, H.
Qed.

Lemma popStackToBuffer_popped buffer n σ :
  0 <= stackPointer (stack σ) < modulus -> 0 <= n ->
  popped σ n (popStackToBuffer buffer n σ).2.
Proof.
  intros Hsp Hn. unfold popStackToBuffer.
  rewrite <- (Z2Nat.id n) at 1 by exact Hn.
  apply (for_inv (fun j => popped σ (Z.of_nat j))).
  - apply popped_zero, Hsp.
  - intros j σ1 _ H. rewrite Nat2Z.inj_succ, <- Z.add_1_r.
    apply popByte_popped, H.
Qed.

Lemma popStack_popped n σ :
  0 <= stackPointer (stack σ) < modulus -> 0 <= n ->
  stack (popStack n σ).2 =
    mkStack (dataSize (stack σ)) (wrap (stackPointer (stack σ) - n))
            (data (stack σ)) /\
  consults (popStack n σ).2 = consults σ /\
  (popStack n σ).1 = next σ.
Proof.
  intros Hsp Hn. unfold popStack, bind, malloc, ret.
  match goal with |- context [popStackToBuffer ?p n ?s] =>
    pose proof (popStackToBuffer_popped p n s Hsp Hn) as (Hs & Hc & _);
    destruct (popStackToBuffer p n s) as [[] σ1] end.
  simpl in *. auto.
Qed.

Lemma steps_app c a b :
  steps c (a + b) = steps c a + steps (c + a) b.
Proof.
  revert c. induction a as [|a IH]; intros c; simpl.
  - rewrite Nat.add_0_r. lia.
  - rewrite IH. replace (S c + a)%nat with (c + S a)%nat by lia. lia.
Qed.

Lemma steps_nonneg c g :
  (forall k, 0 <= stackExpansionStepSize (config k)) -> 0 <= steps c g.
Proof.
  intros H. revert c. induction g as [|g IH]; intros c; simpl.
  - lia.
  - specialize (H c). specialize (IH (S c)). lia.
Qed.

Lemma realloc_frame p n σ :
  (realloc p n σ).1 = next σ /\
  stack (realloc p n σ).2 = stack σ /\
  next (realloc p n σ).2 = S (next σ) /\
  consults (realloc p n σ).2 = consults σ.
Proof. unfold realloc. destruct (heap σ !! p); simpl; auto. Qed.

Lemma growStep_counters σ :
  stack (growStep σ).2 =
    mkStack (wrap (dataSize (stack σ)
                   + wrap (stackExpansionStepSize (config (consults σ)))))
            (stackPointer (stack σ)) (next σ) /\
  consults (growStep σ).2 = S (consults σ) /\
  next (growStep σ).2 = S (next σ).
Proof.
  unfold growStep, bind, getStackExpansionStepSize, consult, getStack,
    setDataSize, setData. simpl.
  match goal with |- context [realloc ?p ?n ?s] =>
    destruct (realloc_frame p n s) as (Ep & Es & En & Ec);
    destruct (realloc p n s) as [q σ1] end.
  simpl in *. rewrite Es, En, Ec, Ep. simpl. auto.
Qed.

Lemma grow_done fuel σ :
  stackPointer (stack σ) < dataSize (stack σ) -> grow fuel σ = Some (tt, σ).
Proof.
  intros H. destruct fuel; simpl; rewrite decide_False by lia; reflexivity.
Qed.

Lemma grow_counters B fuel σ :
  ConfigOK B -> Counters σ -> stackPointer (stack σ) < B ->
  (1 <= fuel)%nat ->
  exists σ' g,
    grow fuel σ = Some (tt, σ') /\
    stackPointer (stack σ') = stackPointer (stack σ) /\
    stackPointer (stack σ') < dataSize (stack σ') < modulus /\
    dataSize (stack σ') = dataSize (stack σ) + steps (consults σ) g /\
    consults σ' = (consults σ + g)%nat /\
    dataSize (stack σ) <= dataSize (stack σ').
Proof.
  intros Hcfg (Hsp & Hds) HB Hfuel.
  destruct (decide (stackPointer (stack σ) < dataSize (stack σ))) as [Hlt|Hge].
  - exists σ, O. rewrite grow_done by exact Hlt. simpl.
    rewrite Nat.add_0_r. repeat split; try lia.
  - destruct fuel as [|fuel]; [lia|].
    destruct (Hcfg (consults σ)) as (Hpos & Hbound).
    destruct (growStep_counters σ) as (Es & Ec & En).
    assert (Hw : wrap (dataSize (stack σ)
                   + wrap (stackExpansionStepSize (config (consults σ))))
                 = dataSize (stack σ)
                   + stackExpansionStepSize (config (consults σ))).
    { rewrite (wrap_small (stackExpansionStepSize _)) by lia.
      apply wrap_small. lia. }
    rewrite Hw in Es.
    exists (growStep σ).2, 1%nat.
    simpl. rewrite decide_True by lia.
    unfold bindO, lift. destruct (growStep σ) as [[] σ1]. simpl in *.
    rewrite grow_done by (rewrite Es; simpl; lia).
    rewrite Es, Ec. simpl. repeat split; try lia.
Qed.

Lemma pushByte_counters input i σ :
  stack (pushByte input i σ).2 =
    mkStack (dataSize (stack σ)) (wrap (stackPointer (stack σ) + 1))
            (data (stack σ)) /\
  consults (pushByte input i σ).2 = consults σ /\
  next (pushByte input i σ).2 = next σ.
Proof.
  unfold pushByte, bind, getStack, setStackPointer. simpl.
  destruct (load_frame input i σ) as (Ls & Ln & Lc & Lh).
  destruct (load input i σ) as [b σ1]. simpl in *.
  match goal with |- context [store ?p ?i ?b ?s] =>
    destruct (store_frame p i b s) as (Es & En & Ec);
    destruct (store p i b s) as [[] σ2] end.
  simpl in *. rewrite Es, En, Ec, Ls, Ln, Lc. auto.
Qed.

Lemma pushToStack_counters B fuel input n σ :
  ConfigOK B -> Counters σ -> 0 <= n ->
  stackPointer (stack σ) + n <= B -> (1 <= fuel)%nat ->
  exists σ', pushToStack fuel input n σ = Some (tt, σ') /\ pushed σ n σ'.
Proof.
  intros Hcfg Hc Hn HB Hfuel. unfold pushToStack.
  cut (forall k, Z.of_nat k <= n ->
         exists σ', forO_ k 0 (fun i => grow fuel ;;? lift (pushByte input i)) σ
                    = Some (tt, σ') /\ pushed σ (Z.of_nat k) σ').
  { intros H. specialize (H (Z.to_nat n)).
    rewrite Z2Nat.id in H by exact Hn. apply H. lia. }
  intros k Hk.
  apply (forO_inv (fun j σ' => pushed σ (Z.of_nat j) σ')).
  - unfold pushed. repeat split; try apply Hc; try lia.
    exists O. simpl. split; lia.
  - intros j σ1 Hj (Hc1 & Hsp1 & Hds1 & g1 & Hg1 & Hsum1).
    destruct (grow_counters B fuel σ1 Hcfg Hc1 ltac:(lia) Hfuel)
      as (σ2 & g2 & E & Hsp2 & Hlt2 & Hds2 & Hg2 & Hle2).
    unfold bindO. rewrite E. unfold lift.
    destruct (pushByte_counters input (0 + Z.of_nat j) σ2) as (Es & Ec & En).
    destruct (pushByte input (0 + Z.of_nat j) σ2) as [[] σ3]. simpl in *.
    exists σ3. split; [reflexivity|].
    destruct Hc1 as (Hsp1' & Hds1').
    unfold pushed, Counters. rewrite Es, Ec. simpl.
    rewrite wrap_small by lia.
    split; [lia|]. split; [lia|]. split; [lia|].
    exists (g1 + g2)%nat. rewrite steps_app. split; [lia|].
    rewrite Hds2, Hsum1, Hg1. lia.
Qed.

(** ** Growth of the backing store *)

Lemma length_fresh p lo n : length (fresh p lo n) = n.
Proof. unfold fresh. rewrite length_map, length_seq. reflexivity. Qed.

Lemma length_resized q n old : length (resized q n old) = n.
Proof.
  unfold resized. rewrite length_app, length_take, length_fresh. lia.
Qed.

Lemma resized_prefix q n old :
  (length old <= n)%nat -> old `prefix_of` resized q n old.
Proof.
  intros H. unfold resized. rewrite take_ge by exact H.
  apply prefix_app_r. reflexivity.
Qed.

Lemma Allocated_lt σ p blk : Allocated σ -> heap σ !! p = Some blk -> (p < next σ)%nat.
Proof. intros H Hp. exact (H p blk Hp). Qed.

Lemma growStep_eq σ bs :
  heap σ !! data (stack σ) = Some bs ->
  growStep σ =
    (tt, let size := wrap (dataSize (stack σ)
                     + wrap (stackExpansionStepSize (config (consults σ)))) in
         mkWorld (mkStack size (stackPointer (stack σ)) (next σ))
                 (<[next σ := resized (next σ) (Z.to_nat size) bs]>
                    (delete (data (stack σ)) (heap σ)))
                 (S (next σ)) (S (consults σ)) (fault σ)).
Proof.
  intros H. unfold growStep, bind, getStackExpansionStepSize, consult,
    getStack, setDataSize, realloc, setData. simpl. rewrite H. reflexivity.
Qed.

Lemma grow_events g : forall fuel σ bs,
  Owns σ bs ->
  (forall k, 0 <= stackExpansionStepSize (config k)) ->
  (forall j, (j < g)%nat ->
     dataSize (stack σ) + steps (consults σ) j <= stackPointer (stack σ)) ->
  stackPointer (stack σ) < dataSize (stack σ) + steps (consults σ) g ->
  dataSize (stack σ) + steps (consults σ) g < modulus ->
  (g <= fuel)%nat ->
  exists σ' bs',
    grow fuel σ = Some (tt, σ') /\
    Owns σ' bs' /\
    stackPointer (stack σ') = stackPointer (stack σ) /\
    dataSize (stack σ') = dataSize (stack σ) + steps (consults σ) g /\
    consults σ' = (consults σ + g)%nat /\
    bs `prefix_of` bs' /\
    others_kept σ σ' /\
    (next σ <= next σ')%nat.
Proof.
  induction g as [|g IH]; intros fuel σ bs Ho Hnn Hloop Hexit Hmax Hfuel.
  - simpl in *. exists σ, bs. rewrite grow_done by lia.
    rewrite Nat.add_0_r, Z.add_0_r.
    split; [reflexivity|]. split; [exact Ho|].
    split; [reflexivity|]. split; [reflexivity|]. split; [reflexivity|].
    split; [reflexivity|]. split; [|lia].
    intros p blk Hne Hp. split; assumption.
  - destruct fuel as [|fuel]; [lia|].
    destruct Ho as (Hblk & Hlen & Hsp & Hds & Hf & Hal).
    pose proof (Hloop O ltac:(lia)) as H0. simpl in H0.
    simpl in Hexit, Hmax.
    pose proof (steps_nonneg (S (consults σ)) g Hnn) as Hrest.
    pose proof (Hnn (consults σ)) as Hstep.
    set (step := stackExpansionStepSize (config (consults σ))) in *.
    assert (Hw : wrap (dataSize (stack σ) + wrap step)
                 = dataSize (stack σ) + step).
    { rewrite (wrap_small step) by lia. apply wrap_small. lia. }
    simpl. rewrite decide_True by lia.
    unfold bindO, lift. rewrite (growStep_eq σ bs Hblk). cbv zeta.
    fold step. rewrite Hw.
    match goal with |- context [grow fuel ?s] => set (σ1 := s) end.
    assert (Ho1 : Owns σ1 (resized (next σ) (Z.to_nat (dataSize (stack σ) + step)) bs)).
    { unfold Owns, σ1. simpl. rewrite lookup_insert_eq, length_resized.
      repeat split; try lia; auto.
      apply map_Forall_insert_2; [simpl; lia|].
      apply map_Forall_delete.
      eapply map_Forall_impl; [exact Hal|]. simpl. intros; lia. }
    destruct (IH fuel σ1 _ Ho1 Hnn) as (σ' & bs' & E & Ho' & Hsp' & Hds' & Hc' & Hpre & Hkept & Hnx).
    + intros j Hj. specialize (Hloop (S j) ltac:(lia)). simpl in *.
      fold step in Hloop. lia.
    + simpl. lia.
    + simpl. lia.
    + lia.
    + exists σ', bs'. split; [exact E|]. simpl in *.
      split; [exact Ho'|]. split; [exact Hsp'|].
      split; [fold step; lia|]. split; [lia|].
      split.
      { etransitivity; [|exact Hpre]. apply resized_prefix. lia. }
      split; [|lia].
      intros p blk Hne Hp.
      pose proof (Allocated_lt σ p blk Hal Hp) as Hlt.
      apply (Hkept p blk); simpl; [lia|].
      rewrite lookup_insert_ne by lia.
      rewrite lookup_delete_ne by congruence. exact Hp.
Qed.

Lemma grow_live B fuel σ bs :
  ConfigOK B -> Live σ bs -> stackPointer (stack σ) < B -> (1 <= fuel)%nat ->
  exists σ' bs',
    grow fuel σ = Some (tt, σ') /\
    Owns σ' bs' /\
    stackPointer (stack σ') = stackPointer (stack σ) /\
    stackPointer (stack σ') < dataSize (stack σ') /\
    dataSize (stack σ) <= dataSize (stack σ') /\
    bs `prefix_of` bs' /\
    others_kept σ σ'.
Proof.
  intros Hcfg (Ho & Hle) HB Hfuel.
  assert (Hnn : forall k, 0 <= stackExpansionStepSize (config k)).
  { intros k. destruct (Hcfg k). lia. }
  destruct (Hcfg (consults σ)) as (Hpos & Hbound).
  pose proof Ho as (_ & _ & Hr & Hm & _).
  destruct (decide (stackPointer (stack σ) < dataSize (stack σ))) as [Hlt|Hge].
  - destruct (grow_events O fuel σ bs Ho Hnn)
      as (σ' & bs' & E & Ho' & Hsp & Hds & _ & Hpre & Hk & _).
    + intros j Hj. lia.
    + simpl. lia.
    + simpl. lia.
    + lia.
    + exists σ', bs'. simpl in Hds.
      repeat (split; [first [assumption | lia]|]). exact Hk.
  - destruct (grow_events 1 fuel σ bs Ho Hnn)
      as (σ' & bs' & E & Ho' & Hsp & Hds & _ & Hpre & Hk & _).
    + intros j Hj. replace j with O by lia. simpl. lia.
    + simpl. lia.
    + simpl. lia.
    + lia.
    + exists σ', bs'. simpl in Hds.
      repeat (split; [first [assumption | lia]|]). exact Hk.
Qed.

Lemma pushByte_eq input i b blk bs σ :
  heap σ !! input = Some blk -> 0 <= i -> blk !! Z.to_nat i = Some b ->
  heap σ !! data (stack σ) = Some bs ->
  0 <= stackPointer (stack σ) ->
  (Z.to_nat (stackPointer (stack σ)) < length bs)%nat ->
  pushByte input i σ =
    (tt, mkWorld (mkStack (dataSize (stack σ))
                          (wrap (stackPointer (stack σ) + 1))
                          (data (stack σ)))
                 (<[data (stack σ) :=
                      <[Z.to_nat (stackPointer (stack σ)) := b]> bs]> (heap σ))
                 (next σ) (consults σ) (fault σ)).
Proof.
  intros Hin Hi Hb Hblk Hsp0 Hsp. unfold pushByte, bind, getStack.
  rewrite (load_hit input i b blk σ Hin Hi Hb).
  rewrite (store_hit _ _ b bs σ Hblk Hsp0 Hsp).
  reflexivity.
Qed.

Lemma Allocated_update σ p blk blk' :
  Allocated σ -> heap σ !! p = Some blk ->
  map_Forall (fun q (_ : list byte) => (q < next σ)%nat) (<[p := blk']> (heap σ)).
Proof.
  intros Hal Hp. apply map_Forall_insert_2; [|exact Hal].
  exact (Hal p blk Hp).
Qed.

(** Contents of the backing store after a push of the first [k] bytes of
    the block [bytes]. *)
Lemma pushToStack_prefix B fuel input bytes k σ bs :
  ConfigOK B -> Live σ bs ->
  heap σ !! input = Some bytes -> input <> data (stack σ) ->
  (k <= length bytes)%nat ->
  stackPointer (stack σ) + Z.of_nat (length bytes) <= B ->
  (1 <= fuel)%nat ->
  exists σ' bs',
    pushToStack fuel input (Z.of_nat k) σ = Some (tt, σ') /\
    Live σ' bs' /\
    stackPointer (stack σ') = stackPointer (stack σ) + Z.of_nat k /\
    take (Z.to_nat (stackPointer (stack σ'))) bs'
      = take (Z.to_nat (stackPointer (stack σ))) bs ++ take k bytes /\
    dataSize (stack σ) <= dataSize (stack σ') /\
    others_kept σ σ'.
Proof.
  intros Hcfg Hlive Hin Hne Hk HB Hfuel. unfold pushToStack.
  rewrite Nat2Z.id.
  set (sp := stackPointer (stack σ)) in *.
  destruct (forO_inv (fun j σ' => exists bs',
      Live σ' bs' /\
      stackPointer (stack σ') = sp + Z.of_nat j /\
      take (Z.to_nat (sp + Z.of_nat j)) bs'
        = take (Z.to_nat sp) bs ++ take j bytes /\
      dataSize (stack σ) <= dataSize (stack σ') /\
      others_kept σ σ')
    (fun i => grow fuel ;;? lift (pushByte input i)) k 0 σ)
    as (σ' & E & bs' & Hl' & Hsp' & Htake & Hds' & Hk').
  - exists bs. rewrite Z.add_0_r, take_0, app_nil_r.
    split; [exact Hlive|]. split; [reflexivity|]. split; [reflexivity|].
    split; [lia|]. intros q blk H1 H2. split; assumption.
  - intros j σ1 Hj (bs1 & Hl1 & Hsp1 & Htake1 & Hds1 & Hk1).
    destruct (grow_live B fuel σ1 bs1 Hcfg Hl1 ltac:(lia) Hfuel)
      as (σ2 & bs2 & E2 & Ho2 & Hsp2 & Hlt2 & Hds2 & Hpre & Hk2).
    destruct (Hk1 input bytes Hne Hin) as (Hin1 & Hne1).
    destruct (Hk2 input bytes Hne1 Hin1) as (Hin2 & Hne2).
    destruct (lookup_lt_is_Some_2 bytes j ltac:(lia)) as (b & Hb).
    destruct Ho2 as (Hblk2 & Hlen2 & Hr2 & Hm2 & Hf2 & Hal2).
    destruct Hl1 as ((Hblk1 & Hlen1 & Hr1 & Hm1 & Hf1 & Hal1) & Hle1).
    assert (Hidx : Z.to_nat (stackPointer (stack σ2)) = Z.to_nat (sp + Z.of_nat j))
      by (f_equal; lia).
    unfold bindO. rewrite E2. unfold lift.
    rewrite (pushByte_eq input _ b bytes bs2 σ2 Hin2); try assumption;
      [| lia | replace (Z.to_nat (0 + Z.of_nat j)) with j by lia; exact Hb
       | lia | lia].
    eexists. split; [reflexivity|].
    exists (<[Z.to_nat (stackPointer (stack σ2)) := b]> bs2).
    rewrite wrap_small by lia. simpl.
    split.
    { unfold Live, Owns. simpl. rewrite lookup_insert_eq, length_insert.
      repeat split; try lia; auto.
      exact (Allocated_update σ2 _ bs2 _ Hal2 Hblk2). }
    split; [lia|]. split.
    { replace (Z.to_nat (sp + Z.of_nat (S j)))
        with (S (Z.to_nat (sp + Z.of_nat j))) by lia.
      rewrite Hidx.
      rewrite (take_S_r _ _ b) by (apply list_lookup_insert_eq; lia).
      rewrite take_insert_ge by lia.
      rewrite (take_S_r _ _ b Hb).
      destruct Hpre as (ext & ->).
      rewrite take_app_le by lia.
      rewrite Htake1, app_assoc. reflexivity. }
    split; [lia|].
    intros p blk Hp1 Hp2.
    destruct (Hk1 p blk Hp1 Hp2) as (Hq1 & Hq1').
    destruct (Hk2 p blk Hq1' Hq1) as (Hq2 & Hq2').
    simpl. rewrite lookup_insert_ne by congruence. split; assumption.
  - exists σ', bs'. split; [exact E|]. split; [exact Hl'|].
    split; [exact Hsp'|]. rewrite Hsp', Htake.
    split; [reflexivity|]. split; assumption.
Qed.

(** Contents of the backing store after a push of the block [bytes]. *)
Lemma pushToStack_contents B fuel input bytes σ bs :
  ConfigOK B -> Live σ bs ->
  heap σ !! input = Some bytes -> input <> data (stack σ) ->
  stackPointer (stack σ) + Z.of_nat (length bytes) <= B ->
  (1 <= fuel)%nat ->
  exists σ' bs',
    pushToStack fuel input (Z.of_nat (length bytes)) σ = Some (tt, σ') /\
    Live σ' bs' /\
    stackPointer (stack σ') = stackPointer (stack σ) + Z.of_nat (length bytes) /\
    take (Z.to_nat (stackPointer (stack σ'))) bs'
      = take (Z.to_nat (stackPointer (stack σ))) bs ++ bytes /\
    dataSize (stack σ) <= dataSize (stack σ') /\
    others_kept σ σ'.
Proof.
  intros Hcfg Hlive Hin Hne HB Hfuel.
  destruct (pushToStack_prefix B fuel input bytes (length bytes) σ bs
              Hcfg Hlive Hin Hne ltac:(lia) HB Hfuel)
    as (σ' & bs' & E & Hl' & Hsp' & Htake & Hds' & Hk').
  rewrite firstn_all in Htake.
  exists σ', bs'. repeat (split; [assumption|]). exact Hk'.
Qed.

(** ** Lists: zeroed ranges and partially filled buffers *)

Lemma cleared_nil m bs : cleared m m bs = bs.
Proof.
  unfold cleared. rewrite Nat.sub_diag. simpl. apply take_drop.
Qed.

Lemma cleared_step lo hi bs :
  (lo < hi <= length bs)%nat ->
  <[lo := x00]> (cleared (S lo) hi bs) = cleared lo hi bs.
Proof.
  intros H. unfold cleared.
  destruct (lookup_lt_is_Some_2 bs lo ltac:(lia)) as (b & Hb).
  rewrite (take_S_r _ _ b Hb), <- app_assoc.
  rewrite insert_app_r_alt by (rewrite length_take; lia).
  rewrite length_take.
  replace (lo - lo `min` length bs)%nat with O by lia.
  replace (hi - lo)%nat with (S (hi - S lo)) by lia.
  reflexivity.
Qed.

Lemma length_cleared lo hi bs :
  (lo <= hi <= length bs)%nat -> length (cleared lo hi bs) = length bs.
Proof.
  intros H. unfold cleared.
  rewrite !length_app, length_take, length_replicate, length_drop. lia.
Qed.

Lemma cleared_below lo hi bs i :
  (i < lo <= length bs)%nat -> cleared lo hi bs !! i = bs !! i.
Proof.
  intros H. unfold cleared.
  rewrite lookup_app_l by (rewrite length_take; lia).
  apply lookup_take_lt. lia.
Qed.

Lemma cleared_zero lo hi bs i :
  (lo <= i < hi)%nat -> (hi <= length bs)%nat ->
  cleared lo hi bs !! i = Some x00.
Proof.
  intros H Hhi. unfold cleared.
  rewrite lookup_app_r by (rewrite length_take; lia).
  rewrite length_take.
  rewrite lookup_app_l by (rewrite length_replicate; lia).
  apply lookup_replicate_2. lia.
Qed.

Lemma cleared_range lo hi bs :
  (lo <= hi <= length bs)%nat ->
  take (hi - lo) (drop lo (cleared lo hi bs)) = replicate (hi - lo) x00.
Proof.
  intros H. unfold cleared.
  rewrite drop_app_length' by (rewrite length_take; lia).
  apply take_app_length'. rewrite length_replicate. reflexivity.
Qed.

Lemma filled_zero src out : filled 0 src out = out.
Proof. reflexivity. Qed.

Lemma filled_step j src out b :
  src !! j = Some b -> (j < length out)%nat ->
  <[j := b]> (filled j src out) = filled (S j) src out.
Proof.
  intros Hb Hj. unfold filled.
  pose proof (lookup_lt_Some _ _ _ Hb) as Hlt.
  destruct (lookup_lt_is_Some_2 out j Hj) as (o & Ho).
  rewrite (take_S_r _ _ b Hb), <- app_assoc.
  rewrite insert_app_r_alt by (rewrite length_take; lia).
  rewrite length_take.
  replace (j - j `min` length src)%nat with O by lia.
  rewrite (drop_S _ o _ Ho). reflexivity.
Qed.

Lemma length_filled j src out :
  (j <= length src)%nat -> (j <= length out)%nat ->
  length (filled j src out) = length out.
Proof.
  intros H1 H2. unfold filled.
  rewrite length_app, length_take, length_drop. lia.
Qed.

Lemma filled_full j src out :
  (length out <= j)%nat -> filled j src out = take j src.
Proof.
  intros H. unfold filled. rewrite drop_ge by exact H. apply app_nil_r.
Qed.

(** ** The pop functions on a Live stack *)

Lemma dropByte_eq σ bs :
  heap σ !! data (stack σ) = Some bs ->
  1 <= stackPointer (stack σ) < modulus ->
  (Z.to_nat (stackPointer (stack σ) - 1) < length bs)%nat ->
  dropByte σ =
    (tt, mkWorld (mkStack (dataSize (stack σ)) (stackPointer (stack σ) - 1)
                          (data (stack σ)))
                 (<[data (stack σ) :=
                      <[Z.to_nat (stackPointer (stack σ) - 1) := x00]> bs]>
                    (heap σ))
                 (next σ) (consults σ) (fault σ)).
Proof.
  intros Hblk Hsp Hlt.
  unfold dropByte, bind, getStack, setStackPointer, store. simpl.
  rewrite wrap_small by lia. rewrite Hblk.
  rewrite decide_True by (unfold within; lia). reflexivity.
Qed.

Lemma popByte_eq buffer i σ bs out b :
  heap σ !! data (stack σ) = Some bs ->
  heap σ !! buffer = Some out ->
  buffer <> data (stack σ) ->
  1 <= stackPointer (stack σ) < modulus ->
  bs !! Z.to_nat (stackPointer (stack σ) - 1) = Some b ->
  0 <= i -> (Z.to_nat i < length out)%nat ->
  popByte buffer i σ =
    (tt, mkWorld (mkStack (dataSize (stack σ)) (stackPointer (stack σ) - 1)
                          (data (stack σ)))
                 (<[data (stack σ) :=
                      <[Z.to_nat (stackPointer (stack σ) - 1) := x00]> bs]>
                    (<[buffer := <[Z.to_nat i := b]> out]> (heap σ)))
                 (next σ) (consults σ) (fault σ)).
Proof.
  intros Hblk Hout Hne Hsp Hb Hi0 Hi.
  pose proof (lookup_lt_Some _ _ _ Hb) as Hlt.
  unfold popByte, bind, getStack, setStackPointer, load, store. simpl.
  rewrite wrap_small by lia. rewrite Hblk, Hb.
  rewrite decide_True by (unfold within; lia). simpl. rewrite Hout.
  rewrite decide_True by (unfold within; lia). simpl.
  rewrite lookup_insert_ne by exact Hne. rewrite Hblk.
  rewrite decide_True by (unfold within; lia). reflexivity.
Qed.

Lemma insert_over (h : gmap nat (list byte)) d x y :
  <[d := x]> (<[d := y]> h) = <[d := x]> h.
Proof. apply insert_insert_eq. Qed.

Lemma insert_over2 (h : gmap nat (list byte)) d p x x' y y' :
  p <> d ->
  <[d := x]> (<[p := y]> (<[d := x']> (<[p := y']> h)))
  = <[d := x]> (<[p := y]> h).
Proof.
  intros Hne. apply map_eq. intros q. rewrite !lookup_insert.
  repeat case_decide; congruence.
Qed.

Lemma popStackWithoutBuffer_eq n σ bs :
  Live σ bs -> 0 <= n <= stackPointer (stack σ) ->
  popStackWithoutBuffer n σ =
    (tt, mkWorld (mkStack (dataSize (stack σ)) (stackPointer (stack σ) - n)
                          (data (stack σ)))
                 (<[data (stack σ) :=
                      cleared (Z.to_nat (stackPointer (stack σ) - n))
                              (Z.to_nat (stackPointer (stack σ))) bs]>
                    (heap σ))
                 (next σ) (consults σ) (fault σ)).
Proof.
  intros ((Hblk & Hlen & Hr & Hm & Hf & Hal) & Hle) Hn.
  unfold popStackWithoutBuffer.
  set (sp := stackPointer (stack σ)) in *.
  pose proof (for_inv (fun j σ' =>
      σ' = mkWorld (mkStack (dataSize (stack σ)) (sp - Z.of_nat j)
                            (data (stack σ)))
                   (<[data (stack σ) :=
                        cleared (Z.to_nat (sp - Z.of_nat j)) (Z.to_nat sp) bs]>
                      (heap σ))
                   (next σ) (consults σ) (fault σ))
    (fun _ => dropByte) (Z.to_nat n) 0 σ) as H.
  destruct (for_ (Z.to_nat n) 0 (fun _ => dropByte) σ) as [[] σ'].
  simpl in H. rewrite Z2Nat.id in H by lia. f_equal. apply H.
  - rewrite Z.sub_0_r, cleared_nil, insert_id by exact Hblk.
    destruct σ as [[ds sp0 d] h nx c f]. reflexivity.
  - intros j σ1 Hj ->.
    erewrite dropByte_eq; simpl;
      [| apply lookup_insert_eq | lia
       | rewrite length_cleared by lia; lia ].
    rewrite insert_over. f_equal.
    + f_equal. lia.
    + f_equal.
      replace (Z.to_nat (sp - Z.of_nat j))
        with (S (Z.to_nat (sp - Z.of_nat j - 1))) by lia.
      replace (Z.to_nat (sp - Z.of_nat (S j)))
        with (Z.to_nat (sp - Z.of_nat j - 1)) by lia.
      apply cleared_step. lia.
Qed.

Lemma topFirst_lookup σ bs j :
  (Z.to_nat (stackPointer (stack σ)) <= length bs)%nat ->
  (j < Z.to_nat (stackPointer (stack σ)))%nat ->
  topFirst σ bs !! j = bs !! (Z.to_nat (stackPointer (stack σ)) - S j)%nat.
Proof.
  intros Hle Hj. unfold topFirst.
  rewrite reverse_lookup by (rewrite length_take; lia).
  rewrite length_take.
  rewrite lookup_take_lt by lia. f_equal. lia.
Qed.

Lemma popStackToBuffer_eq buffer n σ bs out :
  Live σ bs -> heap σ !! buffer = Some out -> buffer <> data (stack σ) ->
  0 <= n <= stackPointer (stack σ) -> (Z.to_nat n <= length out)%nat ->
  popStackToBuffer buffer n σ =
    (tt, mkWorld (mkStack (dataSize (stack σ)) (stackPointer (stack σ) - n)
                          (data (stack σ)))
                 (<[data (stack σ) :=
                      cleared (Z.to_nat (stackPointer (stack σ) - n))
                              (Z.to_nat (stackPointer (stack σ))) bs]>
                    (<[buffer := filled (Z.to_nat n) (topFirst σ bs) out]>
                       (heap σ)))
                 (next σ) (consults σ) (fault σ)).
Proof.
  intros ((Hblk & Hlen & Hr & Hm & Hf & Hal) & Hle) Hout Hne Hn Hroom.
  unfold popStackToBuffer.
  set (top := topFirst σ bs).
  assert (Htop : forall j, (j < Z.to_nat (stackPointer (stack σ)))%nat ->
            top !! j = bs !! (Z.to_nat (stackPointer (stack σ)) - S j)%nat).
  { intros j Hj. apply topFirst_lookup; lia. }
  assert (Hlt : length top = Z.to_nat (stackPointer (stack σ))).
  { unfold top, topFirst. rewrite length_reverse, length_take. lia. }
  clearbody top.
  set (sp := stackPointer (stack σ)) in *.
  pose proof (for_inv (fun j σ' =>
      σ' = mkWorld (mkStack (dataSize (stack σ)) (sp - Z.of_nat j)
                            (data (stack σ)))
                   (<[data (stack σ) :=
                        cleared (Z.to_nat (sp - Z.of_nat j)) (Z.to_nat sp) bs]>
                      (<[buffer := filled j top out]> (heap σ)))
                   (next σ) (consults σ) (fault σ))
    (popByte buffer) (Z.to_nat n) 0 σ) as H.
  destruct (for_ (Z.to_nat n) 0 (popByte buffer) σ) as [[] σ'].
  simpl in H. rewrite Z2Nat.id in H by lia. f_equal. apply H.
  - rewrite Z.sub_0_r, cleared_nil, filled_zero.
    rewrite (insert_id _ buffer out) by exact Hout.
    rewrite insert_id by exact Hblk.
    destruct σ as [[ds sp0 d] h nx c f]. reflexivity.
  - intros j σ1 Hj ->.
    destruct (lookup_lt_is_Some_2 bs (Z.to_nat sp - S j)%nat ltac:(lia))
      as (b & Hb).
    erewrite (popByte_eq buffer _ _ _ _ b); simpl;
      [| apply lookup_insert_eq
       | rewrite lookup_insert_ne by congruence; apply lookup_insert_eq
       | exact Hne | lia
       | rewrite cleared_below by lia;
         replace (Z.to_nat (sp - Z.of_nat j - 1))
           with (Z.to_nat sp - S j)%nat by lia; exact Hb
       | lia
       | rewrite length_filled by lia; lia ].
    rewrite insert_over2 by exact Hne. f_equal.
    + f_equal. lia.
    + f_equal.
      * replace (Z.to_nat (sp - Z.of_nat j))
          with (S (Z.to_nat (sp - Z.of_nat j - 1))) by lia.
        replace (Z.to_nat (sp - Z.of_nat (S j)))
          with (Z.to_nat (sp - Z.of_nat j - 1)) by lia.
        apply cleared_step. lia.
      * f_equal. replace (Z.to_nat (0 + Z.of_nat j)) with j by lia.
        apply filled_step; [|lia].
        rewrite Htop by lia. exact Hb.
Qed.

Lemma popStack_eq n σ bs :
  Live σ bs -> 0 <= n <= stackPointer (stack σ) ->
  popStack n σ =
    (next σ,
     mkWorld (mkStack (dataSize (stack σ)) (stackPointer (stack σ) - n)
                      (data (stack σ)))
             (<[data (stack σ) :=
                  cleared (Z.to_nat (stackPointer (stack σ) - n))
                          (Z.to_nat (stackPointer (stack σ))) bs]>
                (<[next σ := take (Z.to_nat n) (topFirst σ bs)]> (heap σ)))
             (S (next σ)) (consults σ) (fault σ)).
Proof.
  intros Hlive Hn. pose proof Hlive as ((Hblk & Hlen & Hr & Hm & Hf & Hal) & Hle).
  pose proof (Allocated_lt σ _ _ Hal Hblk) as Hd.
  unfold popStack, bind, malloc, ret.
  erewrite (popStackToBuffer_eq (next σ) n _ bs (fresh (next σ) 0 (Z.to_nat n)));
    simpl.
  - rewrite insert_over. unfold topFirst. simpl.
    rewrite filled_full by (rewrite length_fresh; lia). reflexivity.
  - unfold Live, Owns. simpl. rewrite lookup_insert_ne by lia.
    repeat split; try lia; auto.
    apply map_Forall_insert_2; [simpl; lia|].
    eapply map_Forall_impl; [exact Hal|]. simpl. intros; lia.
  - apply lookup_insert_eq.
  - lia.
  - lia.
  - rewrite length_fresh. lia.
Qed.

(** ** Slices *)

Lemma copyByte_eq slice from i σ bs out b :
  heap σ !! data (stack σ) = Some bs ->
  bs !! Z.to_nat (wrap (from + i)) = Some b ->
  heap σ !! slice = Some out ->
  0 <= i -> (Z.to_nat i < length out)%nat ->
  copyByte slice from i σ =
    (tt, withHeap (<[slice := <[Z.to_nat i := b]> out]> (heap σ)) σ).
Proof.
  intros Hblk Hb Hout Hi0 Hi. unfold copyByte, bind, getStack.
  rewrite (load_hit _ _ b bs σ Hblk (proj1 (wrap_range _)) Hb).
  apply (store_hit slice i b out σ Hout Hi0 Hi).
Qed.

Lemma getStackSlice_eq from to σ bs :
  Live σ bs -> 0 <= from <= to -> to <= dataSize (stack σ) ->
  getStackSlice from to σ =
    (next σ,
     mkWorld (stack σ)
             (<[next σ := take (Z.to_nat (to - from)) (drop (Z.to_nat from) bs)]>
                (heap σ))
             (S (next σ)) (consults σ) (fault σ)).
Proof.
  intros ((Hblk & Hlen & Hr & Hm & Hf & Hal) & Hle) Hft Hto.
  pose proof (Allocated_lt σ _ _ Hal Hblk) as Hd.
  unfold getStackSlice, bind, malloc, ret.
  rewrite (wrap_small (to - from)) by lia.
  set (n := Z.to_nat (to - from)).
  set (src := drop (Z.to_nat from) bs).
  set (fr := fresh (next σ) 0 n).
  assert (Hfr : length fr = n) by apply length_fresh.
  assert (Hsrc : (n <= length src)%nat).
  { unfold src. rewrite length_drop. lia. }
  match goal with |- context [for_ n 0 ?body ?s] =>
    pose proof (for_inv (fun j σ' =>
        σ' = mkWorld (stack σ) (<[next σ := filled j src fr]> (heap σ))
                     (S (next σ)) (consults σ) (fault σ))
      body n 0 s) as H;
    destruct (for_ n 0 body s) as [[] σ']
  end.
  simpl in H. f_equal. rewrite <- (filled_full n src fr) by lia. apply H.
  - reflexivity.
  - intros j σ1 Hj ->.
    destruct (lookup_lt_is_Some_2 src j ltac:(lia)) as (b & Hb).
    erewrite (copyByte_eq _ _ _ _ bs (filled j src fr) b); simpl.
    + unfold withHeap. simpl. rewrite insert_over.
      replace (Z.to_nat (0 + Z.of_nat j)) with j by lia.
      rewrite (filled_step j src fr b Hb) by lia. reflexivity.
    + rewrite lookup_insert_ne by lia. exact Hblk.
    + rewrite wrap_small by lia.
      unfold src in Hb. rewrite lookup_drop in Hb.
      replace (Z.to_nat (from + (0 + Z.of_nat j)))
        with (Z.to_nat from + j)%nat by lia.
      exact Hb.
    + apply lookup_insert_eq.
    + lia.
    + rewrite length_filled by lia. lia.
Qed.

Lemma store_other p i b σ q :
  q <> p -> heap (store p i b σ).2 !! q = heap σ !! q.
Proof.
  intros Hne. unfold store. destruct (heap σ !! p); [case_decide|]; simpl;
    try reflexivity.
  apply lookup_insert_ne. congruence.
Qed.

Lemma Allocated_fresh σ : Allocated σ -> heap σ !! next σ = None.
Proof.
  intros Hal. destruct (heap σ !! next σ) as [blk|] eqn:E; [|reflexivity].
  pose proof (Hal _ _ E) as H. simpl in H. lia.
Qed.

Lemma Live_Counters σ bs : Live σ bs -> Counters σ.
Proof.
  intros ((_ & _ & Hr & Hm & _) & Hle). unfold Counters. lia.
Qed.

(** Whatever its arguments, a slice writes to its own new block only. *)
Lemma getStackSlice_frame from to σ :
  (getStackSlice from to σ).1 = next σ /\
  stack (getStackSlice from to σ).2 = stack σ /\
  consults (getStackSlice from to σ).2 = consults σ /\
  forall p, p <> next σ ->
    heap (getStackSlice from to σ).2 !! p = heap σ !! p.
Proof.
  unfold getStackSlice, bind, malloc, ret.
  match goal with |- context [for_ ?n 0 ?body ?s] =>
    pose proof (for_inv (fun j σ' =>
        stack σ' = stack σ /\ consults σ' = consults σ /\
        forall p, p <> next σ -> heap σ' !! p = heap σ !! p)
      body n 0 s) as H;
    destruct (for_ n 0 body s) as [[] σ']
  end.
  simpl in *. split; [reflexivity|]. apply H.
  - split; [reflexivity|]. split; [reflexivity|].
    intros p Hp. apply lookup_insert_ne. congruence.
  - intros j σ1 _ (Hs & Hc & Hh). unfold copyByte, bind, getStack.
    match goal with |- context [load ?p ?i σ1] =>
      destruct (load_frame p i σ1) as (Ls & Ln & Lc & Lh);
      destruct (load p i σ1) as [b σ2] end.
    simpl in *.
    match goal with |- context [store ?p ?i ?b σ2] =>
      destruct (store_frame p i b σ2) as (Es & En & Ec);
      pose proof (store_other p i b σ2) as Eh end.
    rewrite Es, Ec, Ls, Lc. split; [exact Hs|]. split; [exact Hc|].
    intros p Hp. rewrite Eh, Lh by exact Hp. apply Hh, Hp.
Qed.

(** Whenever the [while] loop returns, it has not touched the length and
    the capacity is above it, hence not below the former capacity. *)
Lemma grow_exit fuel : forall σ σ',
  grow fuel σ = Some (tt, σ') ->
  stackPointer (stack σ') = stackPointer (stack σ) /\
  stackPointer (stack σ') < dataSize (stack σ') /\
  dataSize (stack σ) <= dataSize (stack σ').
Proof.
  induction fuel as [|fuel IH]; intros σ σ' E; simpl in E;
    destruct (decide (dataSize (stack σ) <= stackPointer (stack σ)))
      as [Hge|Hlt]; try discriminate;
    try (injection E as <-; lia).
  unfold bindO, lift in E.
  destruct (growStep_counters σ) as (Es & _).
  destruct (growStep σ) as [[] σ1]. simpl in Es.
  destruct (IH σ1 σ' E) as (Hsp & Hlt & _).
  rewrite Es in Hsp. simpl in Hsp. lia.
Qed.

Lemma pushToStack_monotone fuel input n σ σ' :
  pushToStack fuel input n σ = Some (tt, σ') ->
  dataSize (stack σ) <= dataSize (stack σ').
Proof.
  unfold pushToStack.
  apply (forO_kept (fun σ1 => dataSize (stack σ) <= dataSize (stack σ1))).
  - lia.
  - intros j σ1 σ2 H E. unfold bindO, lift in E.
    destruct (grow fuel σ1) as [[[] σ3]|] eqn:Eg; [|discriminate].
    destruct (grow_exit fuel σ1 σ3 Eg) as (_ & _ & Hle).
    destruct (pushByte_counters input j σ3) as (Es & _).
    destruct (pushByte input j σ3) as [[] σ4]. simpl in Es.
    injection E as <-. rewrite Es. simpl. lia.
Qed.

Lemma pop_nothing body n σ : n <= 0 -> for_ (Z.to_nat n) 0 body σ = (tt, σ).
Proof. intros H. rewrite Z2Nat.nonpos by exact H. reflexivity. Qed.

Lemma exec_monotone fuel op σ σ' :
  0 <= stackPointer (stack σ) < modulus ->
  exec fuel op σ = Some (tt, σ') ->
  dataSize (stack σ) <= dataSize (stack σ').
Proof.
  intros Hsp E.
  destruct op as [input n|n|buffer n|n|from to]; simpl in E.
  - exact (pushToStack_monotone fuel input n σ σ' E).
  - unfold lift in E. destruct (decide (0 <= n)) as [Hn|Hn].
    + destruct (popStackWithoutBuffer_popped n σ Hsp Hn) as (Es & _).
      destruct (popStackWithoutBuffer n σ) as [[] σ1].
      injection E as <-. simpl in Es. rewrite Es. simpl. lia.
    + unfold popStackWithoutBuffer in E.
      rewrite pop_nothing in E by lia. injection E as <-. lia.
  - unfold lift in E. destruct (decide (0 <= n)) as [Hn|Hn].
    + destruct (popStackToBuffer_popped buffer n σ Hsp Hn) as (Es & _).
      destruct (popStackToBuffer buffer n σ) as [[] σ1].
      injection E as <-. simpl in Es. rewrite Es. simpl. lia.
    + unfold popStackToBuffer in E.
      rewrite pop_nothing in E by lia. injection E as <-. lia.
  - unfold lift, bind, ret in E. destruct (decide (0 <= n)) as [Hn|Hn].
    + destruct (popStack_popped n σ Hsp Hn) as (Es & _).
      destruct (popStack n σ) as [q σ1].
      injection E as <-. simpl in Es. rewrite Es. simpl. lia.
    + unfold popStack, bind, malloc, ret, popStackToBuffer in E.
      rewrite pop_nothing in E by lia. injection E as <-. simpl. lia.
  - unfold lift, bind, ret in E.
    destruct (getStackSlice_frame from to σ) as (_ & Es & _).
    destruct (getStackSlice from to σ) as [q σ1].
    injection E as <-. simpl in Es. rewrite Es. lia.
Qed.

Lemma admissible_take B ops : forall len k,
  admissible B len ops -> admissible B len (take k ops).
Proof.
  induction ops as [|op ops IH]; intros len k H.
  - rewrite take_nil. exact I.
  - destruct k as [|k]; [exact I|]. simpl in *.
    destruct H as (H1 & H2 & H3 & H4). auto.
Qed.

Lemma exec_counters B fuel op σ :
  ConfigOK B -> Counters σ ->
  admissible B (stackPointer (stack σ)) [op] -> (1 <= fuel)%nat ->
  exists σ', exec fuel op σ = Some (tt, σ') /\ Counters σ' /\
    stackPointer (stack σ')
      = stackPointer (stack σ) + pushedBytes op - poppedBytes op /\
    dataSize (stack σ) <= dataSize (stack σ').
Proof.
  intros Hcfg Hc (Hpush & Hpop & HB & _) Hfuel.
  pose proof Hc as (Hsp & Hds).
  destruct op as [input n|n|buffer n|n|from to]; simpl in *.
  - destruct (pushToStack_counters B fuel input n σ Hcfg Hc Hpush HB Hfuel)
      as (σ' & E & Hc' & Hsp' & Hds' & _).
    exists σ'. repeat split; try apply Hc'; try assumption; lia.
  - unfold lift.
    destruct (popStackWithoutBuffer_popped n σ ltac:(lia) ltac:(lia))
      as (Es & _).
    destruct (popStackWithoutBuffer n σ) as [[] σ']. simpl in *.
    exists σ'. split; [reflexivity|]. unfold Counters. rewrite Es. simpl.
    rewrite wrap_small by lia. lia.
  - unfold lift.
    destruct (popStackToBuffer_popped buffer n σ ltac:(lia) ltac:(lia))
      as (Es & _).
    destruct (popStackToBuffer buffer n σ) as [[] σ']. simpl in *.
    exists σ'. split; [reflexivity|]. unfold Counters. rewrite Es. simpl.
    rewrite wrap_small by lia. lia.
  - unfold lift, bind, ret.
    destruct (popStack_popped n σ ltac:(lia) ltac:(lia)) as (Es & _).
    destruct (popStack n σ) as [q σ']. simpl in *.
    exists σ'. split; [reflexivity|]. unfold Counters. rewrite Es. simpl.
    rewrite wrap_small by lia. lia.
  - unfold lift, bind, ret.
    destruct (getStackSlice_frame from to σ) as (_ & Es & _).
    destruct (getStackSlice from to σ) as [q σ']. simpl in *.
    exists σ'. split; [reflexivity|]. unfold Counters. rewrite Es. lia.
Qed.

Lemma run_counters B fuel ops : forall σ,
  ConfigOK B -> Counters σ ->
  admissible B (stackPointer (stack σ)) ops -> (1 <= fuel)%nat ->
  exists σ', run fuel ops σ = Some (tt, σ') /\ Counters σ' /\
    stackPointer (stack σ')
      = stackPointer (stack σ) + total pushedBytes ops - total poppedBytes ops /\
    dataSize (stack σ) <= dataSize (stack σ').
Proof.
  induction ops as [|op ops IH]; intros σ Hcfg Hc Hadm Hfuel.
  - exists σ. simpl. repeat split; try apply Hc; lia.
  - destruct Hadm as (H1 & H2 & H3 & H4).
    destruct (exec_counters B fuel op σ Hcfg Hc) as (σ1 & E1 & Hc1 & Hsp1 & Hds1);
      [simpl; auto | exact Hfuel |].
    rewrite <- Hsp1 in H4.
    destruct (IH σ1 Hcfg Hc1 H4 Hfuel) as (σ' & E' & Hc' & Hsp' & Hds').
    exists σ'. simpl. unfold bindO. rewrite E1.
    split; [exact E'|]. split; [exact Hc'|]. split; [|lia].
    rewrite Hsp', Hsp1. lia.
Qed.

Lemma create_counters σ :
  Counters (create σ).2 /\ stackPointer (stack (create σ).2) = 0.
Proof.
  unfold create, newStack, bind, getInitialStackSize, consult, malloc, ret,
    Counters.
  pose proof (wrap_range (initialStackSize (config (consults σ)))).
  pose proof (wrap_range (initialStackSize (config (S (consults σ))))).
  destruct (capacityFirst (consults σ)); simpl; lia.
Qed.

(** ** The push, byte by byte *)

Lemma forO_app (body : Z -> MO unit) k1 k2 : forall i σ,
  forO_ (k1 + k2) i body σ
  = (forO_ k1 i body ;;? forO_ k2 (i + Z.of_nat k1) body) σ.
Proof.
  induction k1 as [|k1 IH]; intros i σ.
  - simpl. unfold bindO, retO. rewrite Z.add_0_r. reflexivity.
  - simpl. unfold bindO. destruct (body i σ) as [[[] σ1]|]; [|reflexivity].
    rewrite IH. unfold bindO.
    replace (i + 1 + Z.of_nat k1) with (i + Z.of_nat (S k1)) by lia.
    reflexivity.
Qed.

Lemma forO_snoc (body : Z -> MO unit) k i σ :
  forO_ (k + 1) i body σ = (forO_ k i body ;;? body (i + Z.of_nat k)) σ.
Proof.
  rewrite forO_app. unfold bindO.
  destruct (forO_ k i body σ) as [[[] σ1]|]; [|reflexivity].
  simpl. unfold bindO, retO.
  destruct (body (i + Z.of_nat k) σ1) as [[[] σ2]|]; reflexivity.
Qed.

(** A push of [j + 1] bytes is a push of [j] bytes, then the growth loop,
    then the store of byte [j]. *)
Lemma pushToStack_snoc fuel input j σ :
  0 <= j ->
  pushToStack fuel input (j + 1) σ
  = (pushToStack fuel input j ;;? (grow fuel ;;? lift (pushByte input j))) σ.
Proof.
  intros Hj. unfold pushToStack.
  replace (Z.to_nat (j + 1)) with (Z.to_nat j + 1)%nat by lia.
  rewrite forO_snoc.
  replace (0 + Z.of_nat (Z.to_nat j)) with j by lia. reflexivity.
Qed.

(** The growth loop on a Live stack, as the push meets it before a byte:
    nothing when there is room, one growth event when the stack is full. *)
Lemma grow_before_byte B fuel σ bs :
  ConfigOK B -> Live σ bs -> stackPointer (stack σ) < B -> (1 <= fuel)%nat ->
  exists σ' bs',
    grow fuel σ = Some (tt, σ') /\
    Owns σ' bs' /\
    stackPointer (stack σ') = stackPointer (stack σ) /\
    stackPointer (stack σ') < dataSize (stack σ') /\
    bs `prefix_of` bs' /\
    ((stackPointer (stack σ) < dataSize (stack σ) /\ σ' = σ) \/
     (dataSize (stack σ) <= stackPointer (stack σ) /\
      consults σ' = S (consults σ) /\
      dataSize (stack σ')
        = dataSize (stack σ) + stackExpansionStepSize (config (consults σ)) /\
      heap σ !! data (stack σ') = None)).
Proof.
  intros Hcfg Hlive HB Hfuel.
  destruct (grow_live B fuel σ bs Hcfg Hlive HB Hfuel)
    as (σ' & bs' & E & Ho' & Hsp & Hlt & _ & Hpre & _).
  exists σ', bs'. repeat (split; [assumption|]).
  pose proof Hlive as ((Hblk & Hlen & Hr & Hm & Hf & Hal) & Hle).
  destruct (decide (stackPointer (stack σ) < dataSize (stack σ))) as [Hroom|Hfull].
  - left. split; [exact Hroom|].
    rewrite grow_done in E by exact Hroom. congruence.
  - right. split; [lia|].
    destruct (Hcfg (consults σ)) as (Hpos & Hbound).
    destruct fuel as [|fuel]; [lia|].
    simpl in E. rewrite decide_True in E by lia.
    unfold bindO, lift in E.
    destruct (growStep_counters σ) as (Es & Ec & _).
    rewrite (wrap_small (stackExpansionStepSize _)) in Es by lia.
    rewrite wrap_small in Es by lia.
    destruct (growStep σ) as [[] σ1]. simpl in Es, Ec.
    rewrite grow_done in E by (rewrite Es; simpl; lia).
    injection E as <-. rewrite Es, Ec. simpl.
    split; [reflexivity|]. split; [reflexivity|].
    apply Allocated_fresh, Hal.
Qed.

Lemma vacated_intro k σ bs h nx c :
  Live σ bs -> 0 <= k <= stackPointer (stack σ) ->
  map_Forall (fun p (_ : list byte) => (p < nx)%nat) h ->
  (data (stack σ) < nx)%nat ->
  vacated k σ
    (mkWorld (mkStack (dataSize (stack σ)) (stackPointer (stack σ) - k)
                      (data (stack σ)))
             (<[data (stack σ) :=
                  cleared (Z.to_nat (stackPointer (stack σ) - k))
                          (Z.to_nat (stackPointer (stack σ))) bs]> h)
             nx c (fault σ)).
Proof.
  intros ((Hblk & Hlen & Hr & Hm & Hf & Hal) & Hle) Hk Hall Hd.
  set (sp := stackPointer (stack σ)) in *.
  set (bs' := cleared (Z.to_nat (sp - k)) (Z.to_nat sp) bs).
  assert (Hlen' : length bs' = length bs) by (apply length_cleared; lia).
  unfold vacated. cbv zeta. fold sp. simpl.
  split; [reflexivity|]. split.
  - exists bs'. split; [apply lookup_insert_eq|].
    intros i Hi. apply cleared_zero; lia.
  - erewrite (getStackSlice_eq _ _ _ bs'); simpl.
    + rewrite lookup_insert_eq. f_equal.
      replace (Z.to_nat (sp - (sp - k))) with (Z.to_nat sp - Z.to_nat (sp - k))%nat
        by lia.
      replace (Z.to_nat k) with (Z.to_nat sp - Z.to_nat (sp - k))%nat by lia.
      apply cleared_range. lia.
    + unfold Live, Owns. simpl. rewrite lookup_insert_eq.
      repeat split; try lia; auto.
      apply map_Forall_insert_2; [exact Hd | exact Hall].
    + lia.
    + lia.
Qed.

(** ** The properties of the specification *)

(** C1, push/pop round-trip.  Pushing the [n] bytes of a block onto a Live
    stack and then calling [popStack] with the same [n] returns a new block
    that holds exactly these bytes reversed, most recently pushed first,
    whatever the stack held before; no access leaves its block and the
    length is back to what it was. *)
Theorem push_pop_roundtrip B fuel input bytes σ bs :
  ConfigOK B -> Live σ bs ->
  heap σ !! input = Some bytes -> input <> data (stack σ) ->
  stackPointer (stack σ) + Z.of_nat (length bytes) <= B ->
  (1 <= fuel)%nat ->
  exists σ1,
    pushToStack fuel input (Z.of_nat (length bytes)) σ = Some (tt, σ1) /\
    let r := popStack (Z.of_nat (length bytes)) σ1 in
    heap r.2 !! r.1 = Some (reverse bytes) /\
    heap σ1 !! r.1 = None /\
    stackPointer (stack r.2) = stackPointer (stack σ) /\
    fault r.2 = false.
Proof.
  intros Hcfg Hlive Hin Hne HB Hfuel.
  destruct (pushToStack_contents B fuel input bytes σ bs Hcfg Hlive Hin Hne HB Hfuel)
    as (σ1 & bs1 & E & Hl1 & Hsp1 & Htake & _ & _).
  exists σ1. split; [exact E|].
  pose proof Hl1 as ((Hblk & Hlen & Hr & Hm & Hf & Hal) & Hle).
  pose proof Hlive as ((_ & _ & Hr0 & _) & _).
  pose proof (Allocated_lt σ1 _ _ Hal Hblk) as Hd.
  rewrite (popStack_eq _ σ1 bs1 Hl1) by lia. simpl.
  rewrite lookup_insert_ne by lia. rewrite lookup_insert_eq.
  unfold topFirst. rewrite Htake, reverse_app.
  rewrite take_app_length' by (rewrite length_reverse; lia).
  split; [reflexivity|]. split; [apply Allocated_fresh, Hal|].
  split; [lia | exact Hf].
Qed.

(** C2, length invariant.  Start from [create] and run any sequence of
    operations in which every pop takes at most the current length.  After
    every operation of the sequence (that is, after each of its prefixes)
    the run has returned, the length field is the total of the bytes pushed
    minus the total of the bytes popped, and [0 <= length <= capacity]. *)
Theorem length_invariant B fuel ops σ k :
  ConfigOK B -> admissible B 0 ops -> (1 <= fuel)%nat ->
  exists σ',
    (lift create ;;? run fuel (take k ops)) σ = Some (tt, σ') /\
    stackPointer (stack σ')
      = total pushedBytes (take k ops) - total poppedBytes (take k ops) /\
    0 <= stackPointer (stack σ') <= dataSize (stack σ').
Proof.
  intros Hcfg Hadm Hfuel.
  destruct (create_counters σ) as (Hc & Hsp).
  unfold bindO, lift. destruct (create σ) as [[] σ0]. simpl in Hc, Hsp.
  destruct (run_counters B fuel (take k ops) σ0 Hcfg Hc) as (σ' & E & Hc' & Hsp' & _).
  - rewrite Hsp. apply admissible_take, Hadm.
  - exact Hfuel.
  - exists σ'. split; [exact E|]. split; [lia|]. apply Hc'.
Qed.

(** C3, growth during a push.  The statement has two parts.

    The loop: the [while] loop of [pushToStack] on a stack that owns its
    block adds to the capacity, as long as [length >= capacity], the
    expansion step read at a new consultation of the configuration, and
    reallocates the block; it stops, after [g] such growth events, as soon
    as [length < capacity].  The capacity has then grown by the sum of the
    [g] steps, the new block has the new capacity and starts with the
    whole old block, so the bytes [0, length) are where they were.

    The push: on a Live stack, before byte [j] of the input is stored the
    push has stored the [j] bytes before it and runs the loop; the loop
    does nothing when there is room, and otherwise reads one step at a new
    consultation, adds it to the capacity and moves the bytes to a new
    block; either way [length < capacity] holds when the byte is stored
    and the block starts with the old live bytes followed by the [j] bytes
    pushed so far.  The whole push returns with a capacity grown by the sum
    of the steps consulted, and the bytes pushed earlier are intact and in
    their order. *)
Theorem push_growth :
  (forall g fuel σ bs,
     Owns σ bs ->
     (forall k, 0 <= stackExpansionStepSize (config k)) ->
     (forall j, (j < g)%nat ->
        dataSize (stack σ) + steps (consults σ) j <= stackPointer (stack σ)) ->
     stackPointer (stack σ) < dataSize (stack σ) + steps (consults σ) g ->
     dataSize (stack σ) + steps (consults σ) g < modulus ->
     (g <= fuel)%nat ->
     exists σ' bs',
       grow fuel σ = Some (tt, σ') /\
       stackPointer (stack σ') = stackPointer (stack σ) /\
       stackPointer (stack σ') < dataSize (stack σ') /\
       dataSize (stack σ') = dataSize (stack σ) + steps (consults σ) g /\
       consults σ' = (consults σ + g)%nat /\
       heap σ' !! data (stack σ') = Some bs' /\
       Z.of_nat (length bs') = dataSize (stack σ') /\
       bs `prefix_of` bs' /\
       (forall i, 0 <= i < stackPointer (stack σ) ->
          i < dataSize (stack σ) -> bs' !! Z.to_nat i = bs !! Z.to_nat i) /\
       fault σ' = false) /\
  (forall B fuel input bytes σ bs,
     ConfigOK B -> Live σ bs ->
     heap σ !! input = Some bytes -> input <> data (stack σ) ->
     stackPointer (stack σ) + Z.of_nat (length bytes) <= B ->
     (1 <= fuel)%nat ->
     (forall j, (j < length bytes)%nat ->
        exists σj bsj σg bsg,
          pushToStack fuel input (Z.of_nat j) σ = Some (tt, σj) /\
          Live σj bsj /\
          grow fuel σj = Some (tt, σg) /\
          pushToStack fuel input (Z.of_nat j + 1) σ
            = Some (pushByte input (Z.of_nat j) σg) /\
          stackPointer (stack σg) = stackPointer (stack σ) + Z.of_nat j /\
          stackPointer (stack σg) < dataSize (stack σg) /\
          ((stackPointer (stack σj) < dataSize (stack σj) /\ σg = σj) \/
           (dataSize (stack σj) <= stackPointer (stack σj) /\
            consults σg = S (consults σj) /\
            dataSize (stack σg)
              = dataSize (stack σj)
                + stackExpansionStepSize (config (consults σj)) /\
            heap σj !! data (stack σg) = None)) /\
          heap σg !! data (stack σg) = Some bsg /\
          Z.of_nat (length bsg) = dataSize (stack σg) /\
          bsj `prefix_of` bsg /\
          take (Z.to_nat (stackPointer (stack σ) + Z.of_nat j)) bsg
            = take (Z.to_nat (stackPointer (stack σ))) bs ++ take j bytes /\
          fault σg = false) /\
     (exists σ' bs' g,
        pushToStack fuel input (Z.of_nat (length bytes)) σ = Some (tt, σ') /\
        Live σ' bs' /\
        consults σ' = (consults σ + g)%nat /\
        dataSize (stack σ')
          = dataSize (stack σ) + steps (consults σ) g /\
        stackPointer (stack σ')
          = stackPointer (stack σ) + Z.of_nat (length bytes) /\
        take (Z.to_nat (stackPointer (stack σ))) bs'
          = take (Z.to_nat (stackPointer (stack σ))) bs /\
        take (Z.to_nat (stackPointer (stack σ'))) bs'
          = take (Z.to_nat (stackPointer (stack σ))) bs ++ bytes)).
Proof.
  split.
  - intros g fuel σ bs Ho Hnn Hloop Hexit Hmax Hfuel.
    destruct (grow_events g fuel σ bs Ho Hnn Hloop Hexit Hmax Hfuel)
      as (σ' & bs' & E & Ho' & Hsp & Hds & Hc & Hpre & _ & _).
    destruct Ho as (_ & Hlen & _).
    destruct Ho' as (Hblk' & Hlen' & _ & _ & Hf' & _).
    exists σ', bs'. repeat (split; [first [assumption | lia]|]).
    split; [|exact Hf'].
    intros i Hi Hi'. destruct Hpre as (ext & ->).
    apply lookup_app_l. lia.
  - intros B fuel input bytes σ bs Hcfg Hlive Hin Hne HB Hfuel.
    pose proof Hlive as ((_ & Hlen & Hr & _) & Hle).
    split.
    + intros j Hj.
      destruct (pushToStack_prefix B fuel input bytes j σ bs
                  Hcfg Hlive Hin Hne ltac:(lia) HB Hfuel)
        as (σj & bsj & Ej & Hlj & Hspj & Htakej & _ & _).
      destruct (grow_before_byte B fuel σj bsj Hcfg Hlj ltac:(lia) Hfuel)
        as (σg & bsg & Eg & Hog & Hspg & Hltg & Hpre & Hcase).
      pose proof Hlj as ((_ & Hlenj & _) & Hlej).
      destruct Hog as (Hblkg & Hleng & _ & _ & Hfg & _).
      exists σj, bsj, σg, bsg.
      split; [exact Ej|]. split; [exact Hlj|]. split; [exact Eg|].
      split.
      { rewrite pushToStack_snoc by lia. unfold bindO.
        rewrite Ej, Eg. reflexivity. }
      split; [lia|]. split; [exact Hltg|]. split; [exact Hcase|].
      split; [exact Hblkg|]. split; [exact Hleng|]. split; [exact Hpre|].
      split; [|exact Hfg].
      rewrite Hspj in Htakej. rewrite <- Htakej.
      destruct Hpre as (ext & ->). apply take_app_le. lia.
    + destruct (pushToStack_contents B fuel input bytes σ bs
                  Hcfg Hlive Hin Hne HB Hfuel)
        as (σ' & bs' & E & Hl' & Hsp' & Htake & _ & _).
      destruct (pushToStack_counters B fuel input (Z.of_nat (length bytes)) σ
                  Hcfg (Live_Counters σ bs Hlive) ltac:(lia) HB Hfuel)
        as (σ2 & E2 & _ & _ & _ & g & Hg & Hsum).
      rewrite E in E2. injection E2 as <-.
      exists σ', bs', g.
      repeat (split; [assumption|]).
      split; [|exact Htake].
      replace (Z.to_nat (stackPointer (stack σ)))
        with (Z.to_nat (stackPointer (stack σ))
              `min` Z.to_nat (stackPointer (stack σ')))%nat at 1 by lia.
      rewrite <- take_take, Htake.
      apply take_app_length'. rewrite length_take. lia.
Qed.

(** C4, slice.  On a Live stack and for [0 <= from <= to <= capacity],
    [getStackSlice] returns a block that was not allocated before, of
    [to - from] bytes, whose byte [i] is byte [from + i] of the backing
    store: the bytes come in forward order. *)
Theorem slice_forward from to σ bs :
  Live σ bs -> 0 <= from <= to -> to <= dataSize (stack σ) ->
  let r := getStackSlice from to σ in
  heap σ !! r.1 = None /\
  exists out,
    heap r.2 !! r.1 = Some out /\
    Z.of_nat (length out) = to - from /\
    (forall i, 0 <= i < to - from ->
       out !! Z.to_nat i = bs !! Z.to_nat (from + i)) /\
    fault r.2 = false.
Proof.
  intros Hlive Hft Hto.
  pose proof Hlive as ((Hblk & Hlen & Hr & Hm & Hf & Hal) & Hle).
  rewrite (getStackSlice_eq from to σ bs Hlive Hft Hto). simpl.
  split; [apply Allocated_fresh, Hal|].
  eexists. split; [apply lookup_insert_eq|].
  split; [rewrite length_take, length_drop; lia|].
  split; [|exact Hf].
  intros i Hi. rewrite lookup_take_lt by lia. rewrite lookup_drop.
  f_equal. lia.
Qed.

(** C5, zero on pop.  On a Live stack of at least [k] bytes, each of the
    three pop functions leaves zeros in the [k] slots it vacates, the
    indices [length - k, length) of before the pop, and a slice of these
    slots, which lie beyond the new length, reads [k] zeros. *)
Theorem zero_on_pop k σ bs :
  Live σ bs -> 0 <= k <= stackPointer (stack σ) ->
  vacated k σ (popStackWithoutBuffer k σ).2 /\
  (forall buffer out,
     heap σ !! buffer = Some out -> buffer <> data (stack σ) ->
     (Z.to_nat k <= length out)%nat ->
     vacated k σ (popStackToBuffer buffer k σ).2) /\
  vacated k σ (popStack k σ).2.
Proof.
  intros Hlive Hk.
  pose proof Hlive as ((Hblk & Hlen & Hr & Hm & Hf & Hal) & Hle).
  pose proof (Allocated_lt σ _ _ Hal Hblk) as Hd.
  split; [|split].
  - rewrite (popStackWithoutBuffer_eq k σ bs Hlive Hk). simpl.
    apply vacated_intro; assumption.
  - intros buffer out Hout Hne Hroom.
    rewrite (popStackToBuffer_eq buffer k σ bs out Hlive Hout Hne Hk Hroom).
    simpl. apply vacated_intro; try assumption.
    exact (Allocated_update σ buffer out _ Hal Hout).
  - rewrite (popStack_eq k σ bs Hlive Hk). simpl.
    apply vacated_intro; try assumption; [|lia].
    apply map_Forall_insert_2; [lia|].
    eapply map_Forall_impl; [exact Hal|]. simpl. intros; lia.
Qed.

(** C6, underflow.  When the count exceeds the current length, each pop
    function still returns, and the length field it leaves is
    [(length - count) mod 2^w], that is [2^w - (count - length)]: the
    counter has wrapped around to a large value. *)
Theorem pop_underflow n buffer σ :
  0 <= stackPointer (stack σ) < modulus ->
  stackPointer (stack σ) < n < modulus ->
  let wrapped := (stackPointer (stack σ) - n) mod 2 ^ Z.pos w in
  wrapped = modulus - (n - stackPointer (stack σ)) /\
  stackPointer (stack (popStackWithoutBuffer n σ).2) = wrapped /\
  stackPointer (stack (popStackToBuffer buffer n σ).2) = wrapped /\
  stackPointer (stack (popStack n σ).2) = wrapped.
Proof.
  intros Hsp Hn. cbv zeta.
  destruct (popStackWithoutBuffer_popped n σ Hsp ltac:(lia)) as (E1 & _).
  destruct (popStackToBuffer_popped buffer n σ Hsp ltac:(lia)) as (E2 & _).
  destruct (popStack_popped n σ Hsp ltac:(lia)) as (E3 & _).
  rewrite E1, E2, E3. simpl. unfold wrap, modulus.
  repeat split; try reflexivity.
  symmetry. apply Z.mod_unique with (q := -1); unfold modulus in *; lia.
Qed.

(** C7, slices are read-only.  On a Live stack and for a valid range,
    [getStackSlice] leaves the [Stack] object (length, capacity, pointer)
    and every byte of every block allocated before as they were, the
    backing store included; the block it returns is a new one, and a later
    write to it changes neither the [Stack] object nor the backing store,
    just as a write to the backing store does not change the slice. *)
Theorem slice_read_only from to σ bs :
  Live σ bs -> 0 <= from <= to -> to <= dataSize (stack σ) ->
  let r := getStackSlice from to σ in
  stack r.2 = stack σ /\
  heap r.2 !! data (stack σ) = Some bs /\
  (forall p, p <> r.1 -> heap r.2 !! p = heap σ !! p) /\
  heap σ !! r.1 = None /\
  r.1 <> data (stack σ) /\
  (forall i b,
     stack (store r.1 i b r.2).2 = stack σ /\
     heap (store r.1 i b r.2).2 !! data (stack σ) = Some bs) /\
  (forall i b,
     heap (store (data (stack σ)) i b r.2).2 !! r.1 = heap r.2 !! r.1).
Proof.
  intros Hlive Hft Hto. cbv zeta.
  pose proof Hlive as ((Hblk & Hlen & Hr & Hm & Hf & Hal) & Hle).
  pose proof (Allocated_lt σ _ _ Hal Hblk) as Hd.
  destruct (getStackSlice_frame from to σ) as (Eq & Es & _ & Eh).
  destruct (getStackSlice from to σ) as [q σ']. simpl in *. subst q.
  assert (Hblk' : heap σ' !! data (stack σ) = Some bs).
  { rewrite Eh by lia. exact Hblk. }
  split; [exact Es|]. split; [exact Hblk'|]. split; [exact Eh|].
  split; [apply Allocated_fresh, Hal|]. split; [lia|]. split.
  - intros i b. destruct (store_frame (next σ) i b σ') as (Fs & _).
    rewrite Fs, store_other by lia. split; assumption.
  - intros i b. apply store_other. lia.
Qed.

(** C9, empty operations.  A push of zero bytes returns at once and leaves
    the whole world as it was: length, capacity and every block.  A slice
    from [k] to [k] returns a new, allocated block of zero bytes and
    changes nothing else. *)
Theorem empty_operations fuel input k σ :
  pushToStack fuel input 0 σ = Some (tt, σ) /\
  getStackSlice k k σ =
    (next σ, mkWorld (stack σ) (<[next σ := []]> (heap σ))
                     (S (next σ)) (consults σ) (fault σ)).
Proof.
  split; [reflexivity|].
  unfold getStackSlice. rewrite Z.sub_diag.
  replace (wrap 0) with 0 by (unfold wrap; rewrite Z.mod_0_l; [reflexivity|];
    pose proof modulus_pos; lia).
  reflexivity.
Qed.

(** C10, pops keep the capacity.  For a count of at most the length, each
    of the three pop functions leaves the capacity field and the pointer to
    the backing store exactly as they were, and does not consult the
    configuration. *)
Theorem pop_keeps_capacity n buffer σ :
  0 <= n <= stackPointer (stack σ) -> stackPointer (stack σ) < modulus ->
  let unchanged σ' :=
    dataSize (stack σ') = dataSize (stack σ) /\
    data (stack σ') = data (stack σ) /\
    consults σ' = consults σ in
  unchanged (popStackWithoutBuffer n σ).2 /\
  unchanged (popStackToBuffer buffer n σ).2 /\
  unchanged (popStack n σ).2.
Proof.
  intros Hn Hsp. cbv zeta.
  destruct (popStackWithoutBuffer_popped n σ ltac:(lia) ltac:(lia)) as (E1 & C1 & _).
  destruct (popStackToBuffer_popped buffer n σ ltac:(lia) ltac:(lia)) as (E2 & C2 & _).
  destruct (popStack_popped n σ ltac:(lia) ltac:(lia)) as (E3 & C3 & _).
  rewrite E1, E2, E3, C1, C2, C3. simpl. repeat split; reflexivity.
Qed.

(** C8, the capacity never shrinks.  Apply any operation (a push, one of
    the three pops, a slice) to a Live stack.  Whenever the operation
    returns, the capacity after it is at least the capacity before it; and
    it does return when the pops stay within the length, the expansion
    steps are positive and the capacity does not overflow. *)
Theorem capacity_never_shrinks op σ bs :
  Live σ bs ->
  (forall fuel σ', exec fuel op σ = Some (tt, σ') ->
     dataSize (stack σ) <= dataSize (stack σ')) /\
  (forall B fuel,
     ConfigOK B -> admissible B (stackPointer (stack σ)) [op] ->
     (1 <= fuel)%nat ->
     exists σ', exec fuel op σ = Some (tt, σ')).
Proof.
  intros Hlive. split.
  - intros fuel σ'. apply exec_monotone.
    destruct Hlive as ((_ & _ & Hr & _) & _). exact Hr.
  - intros B fuel Hcfg Hadm Hfuel.
    destruct (exec_counters B fuel op σ Hcfg (Live_Counters σ bs Hlive) Hadm Hfuel)
      as (σ' & E & _).
    exists σ'. exact E.
Qed.

(** ** Further properties of stack.c *)

(** *** Loops and faults *)

Lemma for_app (body : Z -> M unit) k1 k2 : forall i σ,
  for_ (k1 + k2) i body σ
  = (for_ k1 i body ;; for_ k2 (i + Z.of_nat k1) body) σ.
Proof.
  induction k1 as [|k1 IH]; intros i σ.
  - simpl. unfold bind, ret. rewrite Z.add_0_r. reflexivity.
  - simpl. unfold bind. destruct (body i σ) as [[] σ1].
    rewrite IH. unfold bind.
    replace (i + 1 + Z.of_nat k1) with (i + Z.of_nat (S k1)) by lia.
    reflexivity.
Qed.

Lemma for_const (m : M unit) k : forall i j σ,
  for_ k i (fun _ => m) σ = for_ k j (fun _ => m) σ.
Proof.
  induction k as [|k IH]; intros i j σ; [reflexivity|].
  simpl. unfold bind. destruct (m σ) as [[] σ1]. apply IH.
Qed.

Lemma sticky_ret {A} (a : A) : sticky (ret a).
Proof. intros σ H. exact H. Qed.

Lemma sticky_bind {A B} (m : M A) (f : A -> M B) :
  sticky m -> (forall a, sticky (f a)) -> sticky (bind m f).
Proof.
  intros Hm Hf σ H. unfold bind. specialize (Hm σ H).
  destruct (m σ) as [a σ1]. apply Hf. exact Hm.
Qed.

Lemma sticky_for (body : Z -> M unit) k :
  (forall i, sticky (body i)) -> forall i, sticky (for_ k i body).
Proof.
  intros Hb. induction k as [|k IH]; intros i.
  - apply sticky_ret.
  - simpl. apply sticky_bind; [apply Hb | intros _; apply IH].
Qed.

Lemma sticky_getStack : sticky getStack.
Proof. intros σ H. exact H. Qed.

Lemma sticky_setStackPointer v : sticky (setStackPointer v).
Proof. intros σ H. exact H. Qed.

Lemma sticky_load p i : sticky (load p i).
Proof.
  intros σ H. unfold load.
  destruct (heap σ !! p); [case_decide|]; simpl; auto.
Qed.

Lemma sticky_store p i b : sticky (store p i b).
Proof.
  intros σ H. unfold store.
  destruct (heap σ !! p); [case_decide|]; simpl; auto.
Qed.

Lemma sticky_malloc n : sticky (malloc n).
Proof. intros σ H. exact H. Qed.

Lemma sticky_dropByte : sticky dropByte.
Proof.
  unfold dropByte.
  repeat first [ apply sticky_bind; [|intros ?] | apply sticky_getStack
               | apply sticky_setStackPointer | apply sticky_store ].
Qed.

Lemma sticky_popByte buffer i : sticky (popByte buffer i).
Proof.
  unfold popByte.
  repeat first [ apply sticky_bind; [|intros ?] | apply sticky_getStack
               | apply sticky_setStackPointer | apply sticky_store
               | apply sticky_load ].
Qed.

Lemma sticky_copyByte slice from i : sticky (copyByte slice from i).
Proof.
  unfold copyByte.
  repeat first [ apply sticky_bind; [|intros ?] | apply sticky_getStack
               | apply sticky_store | apply sticky_load ].
Qed.

Lemma sticky_pushByte input i : sticky (pushByte input i).
Proof.
  unfold pushByte.
  repeat first [ apply sticky_bind; [|intros ?] | apply sticky_getStack
               | apply sticky_setStackPointer | apply sticky_store
               | apply sticky_load ].
Qed.

Lemma sticky_growStep : sticky growStep.
Proof.
  intros σ H. unfold growStep, bind, getStackExpansionStepSize, consult,
    getStack, setDataSize, realloc, setData. simpl.
  destruct (heap σ !! data (stack σ)); simpl; auto.
Qed.

Lemma grow_sticky fuel : forall σ σ',
  grow fuel σ = Some (tt, σ') -> fault σ = true -> fault σ' = true.
Proof.
  induction fuel as [|fuel IH]; intros σ σ' E H; simpl in E;
    destruct (decide (dataSize (stack σ) <= stackPointer (stack σ)));
    try discriminate; try (injection E as <-; exact H).
  unfold bindO, lift in E. pose proof (sticky_growStep σ H) as H1.
  destruct (growStep σ) as [[] σ1]. exact (IH σ1 σ' E H1).
Qed.

(** *** Creation and destruction *)

Lemma create_eq σ :
  create σ =
    (tt, mkWorld (mkStack (wrap (initialStackSize (config (capacityIndex σ))))
                          0 (next σ))
                 (<[next σ :=
                      fresh (next σ) 0
                        (Z.to_nat (wrap (initialStackSize
                                           (config (blockIndex σ)))))]>
                    (heap σ))
                 (S (next σ)) (S (S (consults σ))) (fault σ)).
Proof.
  unfold create, newStack, capacityIndex, blockIndex, bind. cbv beta.
  destruct (capacityFirst (consults σ)); reflexivity.
Qed.

Lemma Allocated_malloc σ blk :
  Allocated σ ->
  map_Forall (fun p (_ : list byte) => (p < S (next σ))%nat)
             (<[next σ := blk]> (heap σ)).
Proof.
  intros Hal. apply map_Forall_insert_2; [lia|].
  eapply map_Forall_impl; [exact Hal|]. simpl. intros; lia.
Qed.

(** X1, creation.  [newStack] consults the configuration twice, in one
    of the two orders that C allows: one answer becomes the capacity
    field, the other the size of the block.  The new stack is empty, its
    block is new and the blocks allocated before are untouched.  When the
    two answers agree, the stack is Live. *)
Theorem create_live σ :
  Allocated σ -> fault σ = false ->
  let σ' := (create σ).2 in
  let first := wrap (initialStackSize (config (consults σ))) in
  let second := wrap (initialStackSize (config (S (consults σ)))) in
  stackPointer (stack σ') = 0 /\
  heap σ !! data (stack σ') = None /\
  consults σ' = S (S (consults σ)) /\
  (exists bs, heap σ' !! data (stack σ') = Some bs /\
     ((dataSize (stack σ') = first /\ Z.of_nat (length bs) = second) \/
      (dataSize (stack σ') = second /\ Z.of_nat (length bs) = first))) /\
  (forall p, p <> data (stack σ') -> heap σ' !! p = heap σ !! p) /\
  (first = second -> exists bs, Live σ' bs).
Proof.
  intros Hal Hf. cbv zeta. rewrite create_eq. simpl.
  pose proof (wrap_range (initialStackSize (config (consults σ)))) as H1.
  pose proof (wrap_range (initialStackSize (config (S (consults σ))))) as H2.
  split; [reflexivity|].
  split; [apply Allocated_fresh, Hal|]. split; [reflexivity|].
  split; [|split].
  - eexists. split; [apply lookup_insert_eq|].
    rewrite length_fresh. unfold capacityIndex, blockIndex.
    destruct (capacityFirst (consults σ)); [left | right]; lia.
  - intros p Hp. apply lookup_insert_ne. congruence.
  - intros Heq. unfold capacityIndex, blockIndex.
    destruct (capacityFirst (consults σ)); eexists; unfold Live, Owns; simpl;
      rewrite lookup_insert_eq, length_fresh;
      (split; [|lia]);
      (split; [reflexivity|]); (split; [lia|]); (split; [lia|]);
      (split; [lia|]); (split; [exact Hf|]); apply Allocated_malloc, Hal.
Qed.

Lemma destroyStack_eq σ bs :
  heap σ !! data (stack σ) = Some bs ->
  destroyStack σ = (tt, withHeap (delete (data (stack σ)) (heap σ)) σ).
Proof.
  intros H. unfold destroyStack, bind, getStack, free. rewrite H.
  reflexivity.
Qed.

(** X2, destruction.  [destroyStack] on a Live stack releases the backing
    store and nothing else: the other blocks and the [Stack] object are as
    before, so the object keeps a pointer to a block that is gone, and a
    second [destroyStack] frees a block that is not allocated. *)
Theorem destroy_frees σ bs :
  Live σ bs ->
  let σ' := (destroyStack σ).2 in
  heap σ' !! data (stack σ) = None /\
  (forall p, p <> data (stack σ) -> heap σ' !! p = heap σ !! p) /\
  stack σ' = stack σ /\
  fault σ' = false /\
  fault (destroyStack σ').2 = true.
Proof.
  intros ((Hblk & _ & _ & _ & Hf & _) & _). cbv zeta.
  rewrite (destroyStack_eq σ bs Hblk). simpl.
  split; [apply lookup_delete_eq|].
  split; [intros p Hp; apply lookup_delete_ne; congruence|].
  split; [reflexivity|]. split; [exact Hf|].
  unfold destroyStack, bind, getStack, free. simpl.
  rewrite lookup_delete_eq. reflexivity.
Qed.

(** X3, creation then destruction.  Whatever the configuration answers,
    [destroyStack] right after the creation gives back the heap of before
    the creation: nothing is leaked and no access leaves its block. *)
Theorem create_destroy_restores σ :
  Allocated σ ->
  heap ((create ;; destroyStack) σ).2 = heap σ /\
  fault ((create ;; destroyStack) σ).2 = fault σ.
Proof.
  intros Hal. unfold bind. rewrite create_eq.
  erewrite destroyStack_eq by (simpl; apply lookup_insert_eq).
  simpl. split; [|reflexivity].
  rewrite delete_insert_eq. apply delete_id, Allocated_fresh, Hal.
Qed.

(** X6, discarding in two steps.  Popping [a] bytes and then [b] bytes
    without a buffer is popping [a + b] bytes at once, in every world. *)
Theorem popDiscard_additive a b σ :
  0 <= a -> 0 <= b ->
  (popStackWithoutBuffer a ;; popStackWithoutBuffer b) σ
  = popStackWithoutBuffer (a + b) σ.
Proof.
  intros Ha Hb. unfold popStackWithoutBuffer.
  rewrite Z2Nat.inj_add by assumption. rewrite for_app.
  unfold bind. destruct (for_ (Z.to_nat a) 0 (fun _ => dropByte) σ) as [[] σ1].
  apply for_const.
Qed.

(** *** Accesses that leave the block *)

Lemma for_first_fault (body : Z -> M unit) k i σ :
  (forall j, sticky (body j)) -> (1 <= k)%nat ->
  fault (body i σ).2 = true -> fault (for_ k i body σ).2 = true.
Proof.
  intros Hb Hk H. destruct k as [|k]; [lia|]. simpl. unfold bind.
  destruct (body i σ) as [[] σ1]. apply sticky_for; assumption.
Qed.

Lemma dropByte_dangling σ :
  heap σ !! data (stack σ) = None -> fault (dropByte σ).2 = true.
Proof.
  intros H. unfold dropByte, bind, getStack, setStackPointer, store. simpl.
  rewrite H. reflexivity.
Qed.

Lemma popByte_dangling buffer i σ :
  heap σ !! data (stack σ) = None -> fault (popByte buffer i σ).2 = true.
Proof.
  intros H. unfold popByte, bind, getStack, setStackPointer, load. simpl.
  rewrite H.
  match goal with |- context [store buffer ?j ?b ?s] =>
    pose proof (sticky_store buffer j b s eq_refl) as H1;
    destruct (store_frame buffer j b s) as (Es & _);
    destruct (store buffer j b s) as [[] σ1] end.
  apply sticky_store. exact H1.
Qed.

Lemma copyByte_dangling slice from i σ :
  heap σ !! data (stack σ) = None ->
  fault (copyByte slice from i σ).2 = true.
Proof.
  intros H. unfold copyByte, bind, getStack, load. rewrite H.
  apply sticky_store. reflexivity.
Qed.

Lemma pushByte_dangling input i σ :
  heap σ !! data (stack σ) = None -> fault (pushByte input i σ).2 = true.
Proof.
  intros H. unfold pushByte, bind, getStack.
  destruct (load_frame input i σ) as (_ & _ & _ & Lh).
  destruct (load input i σ) as [b σ1]. simpl in Lh.
  unfold store. rewrite Lh, H. reflexivity.
Qed.

Lemma grow_dangling fuel σ σ' :
  heap σ !! data (stack σ) = None -> grow fuel σ = Some (tt, σ') ->
  fault σ' = true \/ heap σ' !! data (stack σ') = None.
Proof.
  intros H E. destruct fuel as [|fuel]; simpl in E;
    destruct (decide (dataSize (stack σ) <= stackPointer (stack σ)));
    try discriminate; try (injection E as <-; right; exact H).
  left. unfold bindO, lift in E.
  assert (H1 : fault (growStep σ).2 = true).
  { unfold growStep, bind, getStackExpansionStepSize, consult, getStack,
      setDataSize, realloc, setData. simpl. rewrite H. reflexivity. }
  destruct (growStep σ) as [[] σ1]. exact (grow_sticky fuel σ1 σ' E H1).
Qed.

Lemma pushToStack_sticky fuel input n σ σ' :
  pushToStack fuel input n σ = Some (tt, σ') ->
  fault σ = true -> fault σ' = true.
Proof.
  intros E H. revert E. unfold pushToStack.
  apply (forO_kept (fun σ1 => fault σ1 = true)); [exact H|].
  intros j σ1 σ2 H1 E. unfold bindO, lift in E.
  destruct (grow fuel σ1) as [[[] σ3]|] eqn:Eg; [|discriminate].
  pose proof (sticky_pushByte input j σ3 (grow_sticky fuel σ1 σ3 Eg H1)) as H3.
  destruct (pushByte input j σ3) as [[] σ4]. injection E as <-. exact H3.
Qed.

Lemma pushToStack_dangling fuel input n σ σ' :
  heap σ !! data (stack σ) = None -> 1 <= n ->
  pushToStack fuel input n σ = Some (tt, σ') -> fault σ' = true.
Proof.
  intros H Hn E. unfold pushToStack in E.
  destruct (Z.to_nat n) as [|k] eqn:Ek; [lia|].
  simpl in E. unfold bindO at 1 in E. unfold bindO at 1 in E.
  destruct (grow fuel σ) as [[[] σ1]|] eqn:Eg; [|discriminate].
  unfold lift in E.
  assert (H2 : fault (pushByte input 0 σ1).2 = true).
  { destruct (grow_dangling fuel σ σ1 H Eg) as [Hf|Hd].
    - apply sticky_pushByte, Hf.
    - apply pushByte_dangling, Hd. }
  destruct (pushByte input 0 σ1) as [[] σ2]. simpl in H2.
  revert E.
  apply (forO_kept (fun σ3 => fault σ3 = true)); [exact H2|].
  intros j σ3 σ4 H3 E. unfold bindO, lift in E.
  destruct (grow fuel σ3) as [[[] σ5]|] eqn:Eg'; [|discriminate].
  pose proof (sticky_pushByte input j σ5 (grow_sticky fuel σ3 σ5 Eg' H3)) as H5.
  destruct (pushByte input j σ5) as [[] σ6]. injection E as <-. exact H5.
Qed.

(** X4, use after destruction.  Once [destroyStack] has released the
    backing store of a Live stack, every pop of at least one byte, every
    slice of at least one byte and every push of at least one byte reaches
    into the released block. *)
Theorem use_after_destroy n σ bs :
  Live σ bs -> 1 <= n ->
  let σ' := (destroyStack σ).2 in
  fault (popStackWithoutBuffer n σ').2 = true /\
  (forall buffer, fault (popStackToBuffer buffer n σ').2 = true) /\
  fault (popStack n σ').2 = true /\
  (forall from to, 1 <= wrap (to - from) ->
     fault (getStackSlice from to σ').2 = true) /\
  (forall B fuel input,
     ConfigOK B -> stackPointer (stack σ) + n <= B -> (1 <= fuel)%nat ->
     exists σ'', pushToStack fuel input n σ' = Some (tt, σ'') /\
                 fault σ'' = true).
Proof.
  intros Hlive Hn. cbv zeta.
  pose proof Hlive as ((Hblk & _ & _ & _ & _ & Hal) & _).
  pose proof (Allocated_lt σ _ _ Hal Hblk) as Hd.
  pose proof (Live_Counters σ bs Hlive) as Hc.
  rewrite (destroyStack_eq σ bs Hblk). simpl.
  set (σ' := withHeap (delete (data (stack σ)) (heap σ)) σ).
  assert (Hgone : heap σ' !! data (stack σ') = None)
    by apply lookup_delete_eq.
  split; [|split; [|split; [|split]]].
  - unfold popStackWithoutBuffer.
    apply for_first_fault; [intros _; apply sticky_dropByte | lia |].
    apply dropByte_dangling, Hgone.
  - intros buffer. unfold popStackToBuffer.
    apply for_first_fault; [apply sticky_popByte | lia |].
    apply popByte_dangling, Hgone.
  - unfold popStack, bind, malloc, ret.
    match goal with |- context [popStackToBuffer ?p n ?s] =>
      assert (H : fault (popStackToBuffer p n s).2 = true);
      [| destruct (popStackToBuffer p n s) as [[] σ1]; exact H] end.
    unfold popStackToBuffer.
    apply for_first_fault; [apply sticky_popByte | lia |].
    apply popByte_dangling. simpl.
    rewrite lookup_insert_ne by lia. apply lookup_delete_eq.
  - intros from to Hlen. unfold getStackSlice, bind, malloc, ret.
    match goal with |- context [for_ ?k 0 ?body ?s] =>
      assert (H : fault (for_ k 0 body s).2 = true);
      [| destruct (for_ k 0 body s) as [[] σ1]; exact H] end.
    apply for_first_fault; [apply sticky_copyByte | lia |].
    apply copyByte_dangling. simpl.
    rewrite lookup_insert_ne by lia. apply lookup_delete_eq.
  - intros B fuel input Hcfg HB Hfuel.
    destruct (pushToStack_counters B fuel input n σ' Hcfg Hc ltac:(lia) HB Hfuel)
      as (σ'' & E & _).
    exists σ''. split; [exact E|].
    exact (pushToStack_dangling fuel input n σ' σ'' Hgone Hn E).
Qed.

Lemma wrap_minus_one : wrap (0 - 1) = modulus - 1.
Proof.
  pose proof modulus_pos. unfold wrap. symmetry.
  apply Z.mod_unique with (q := -1); lia.
Qed.

Lemma store_shape p i b σ q blk :
  heap σ !! q = Some blk ->
  exists blk', heap (store p i b σ).2 !! q = Some blk' /\
               length blk' = length blk.
Proof.
  intros H. unfold store.
  destruct (heap σ !! p) as [old|] eqn:Ep; [case_decide|]; simpl;
    try (exists blk; split; [exact H | reflexivity]).
  destruct (decide (p = q)) as [->|Hne].
  - rewrite lookup_insert_eq. eexists. split; [reflexivity|].
    rewrite length_insert. congruence.
  - rewrite lookup_insert_ne by exact Hne. exists blk. split; auto.
Qed.

Lemma dropByte_shape σ q blk :
  heap σ !! q = Some blk ->
  exists blk', heap (dropByte σ).2 !! q = Some blk' /\
               length blk' = length blk.
Proof.
  intros H. unfold dropByte, bind, getStack, setStackPointer. simpl.
  apply store_shape. exact H.
Qed.

Lemma popByte_shape buffer i σ q blk :
  heap σ !! q = Some blk ->
  exists blk', heap (popByte buffer i σ).2 !! q = Some blk' /\
               length blk' = length blk.
Proof.
  intros H. unfold popByte, bind, getStack, setStackPointer. simpl.
  match goal with |- context [load ?p ?j ?s] =>
    destruct (load_frame p j s) as (_ & _ & _ & Lh);
    destruct (load p j s) as [b σ1] end.
  simpl in Lh.
  match goal with |- context [store buffer ?j ?c σ1] =>
    destruct (store_shape buffer j c σ1 q blk) as (blk1 & H1 & L1);
    [rewrite Lh; exact H|];
    destruct (store buffer j c σ1) as [[] σ2] end.
  simpl in H1.
  match goal with |- context [store ?p ?j ?c σ2] =>
    destruct (store_shape p j c σ2 q blk1 H1) as (blk2 & H2 & L2) end.
  exists blk2. split; [exact H2 | congruence].
Qed.

Lemma dropByte_underflow σ blk :
  stackPointer (stack σ) = 0 ->
  heap σ !! data (stack σ) = Some blk ->
  Z.of_nat (length blk) < modulus ->
  fault (dropByte σ).2 = true.
Proof.
  intros Hsp Hblk Hlen.
  unfold dropByte, bind, getStack, setStackPointer, store. simpl.
  rewrite Hsp, wrap_minus_one, Hblk.
  rewrite decide_False by (unfold within; lia). reflexivity.
Qed.

Lemma popByte_underflow buffer i σ blk :
  stackPointer (stack σ) = 0 ->
  heap σ !! data (stack σ) = Some blk ->
  Z.of_nat (length blk) < modulus ->
  fault (popByte buffer i σ).2 = true.
Proof.
  intros Hsp Hblk Hlen.
  unfold popByte, bind, getStack, setStackPointer, load. simpl.
  rewrite Hsp, wrap_minus_one, Hblk.
  rewrite decide_False by (unfold within; lia).
  match goal with |- context [store buffer ?j ?b ?s] =>
    pose proof (sticky_store buffer j b s eq_refl) as H1;
    destruct (store buffer j b s) as [[] σ1] end.
  apply sticky_store. exact H1.
Qed.

(** The counters and the size of the backing store after [j] turns of a
    pop loop, whatever the memory accesses did. *)
Lemma pop_loop_reaches (body : Z -> M unit) σ bs k :
  heap σ !! data (stack σ) = Some bs ->
  0 <= stackPointer (stack σ) < modulus ->
  (forall i σ0 j σ1, popped σ0 j σ1 -> popped σ0 (j + 1) (body i σ1).2) ->
  (forall i σ1 q blk, heap σ1 !! q = Some blk ->
     exists blk', heap (body i σ1).2 !! q = Some blk' /\
                  length blk' = length blk) ->
  let σ' := (for_ k 0 body σ).2 in
  popped σ (Z.of_nat k) σ' /\
  exists blk, heap σ' !! data (stack σ) = Some blk /\
              length blk = length bs.
Proof.
  intros Hblk Hsp Hpop Hshape. cbv zeta.
  apply (for_inv (fun j σ1 =>
    popped σ (Z.of_nat j) σ1 /\
    exists blk, heap σ1 !! data (stack σ) = Some blk /\
                length blk = length bs)).
  - split; [apply popped_zero, Hsp|]. exists bs. auto.
  - intros j σ1 _ (Hp & blk & Hb & Hl). split.
    + rewrite Nat2Z.inj_succ, <- Z.add_1_r. apply Hpop, Hp.
    + destruct (Hshape (0 + Z.of_nat j) σ1 _ _ Hb) as (blk' & Hb' & Hl').
      exists blk'. split; [exact Hb' | congruence].
Qed.

Lemma pop_loop_underflow (body : Z -> M unit) σ bs n :
  heap σ !! data (stack σ) = Some bs ->
  Z.of_nat (length bs) < modulus ->
  0 <= stackPointer (stack σ) < n ->
  stackPointer (stack σ) < modulus ->
  (forall i σ0 j σ1, popped σ0 j σ1 -> popped σ0 (j + 1) (body i σ1).2) ->
  (forall i σ1 q blk, heap σ1 !! q = Some blk ->
     exists blk', heap (body i σ1).2 !! q = Some blk' /\
                  length blk' = length blk) ->
  (forall i, sticky (body i)) ->
  (forall i σ1 blk, stackPointer (stack σ1) = 0 ->
     heap σ1 !! data (stack σ1) = Some blk ->
     Z.of_nat (length blk) < modulus -> fault (body i σ1).2 = true) ->
  fault (for_ (Z.to_nat n) 0 body σ).2 = true.
Proof.
  intros Hblk Hlen Hn Hsp Hpop Hshape Hsticky Hunder.
  replace (Z.to_nat n)
    with (Z.to_nat (stackPointer (stack σ))
          + Z.to_nat (n - stackPointer (stack σ)))%nat by lia.
  rewrite for_app. unfold bind.
  destruct (pop_loop_reaches body σ bs (Z.to_nat (stackPointer (stack σ)))
              Hblk ltac:(lia) Hpop Hshape) as ((Es & _) & blk & Hb & Hl).
  destruct (for_ (Z.to_nat (stackPointer (stack σ))) 0 body σ) as [[] σ1].
  simpl in Es, Hb.
  rewrite Z2Nat.id, Z.sub_diag in Es by lia.
  rewrite (wrap_small 0) in Es by (pose proof modulus_pos; lia).
  apply for_first_fault; [exact Hsticky | lia |].
  apply (Hunder _ σ1 blk).
  - rewrite Es. reflexivity.
  - rewrite Es. exact Hb.
  - lia.
Qed.

(** X16, where an underflow writes.  On a Live stack, each of the three
    pop functions called with a count above the length accesses the
    backing store outside its block: the access that follows the wrap of
    the length is at index [2^w - 1]. *)
Theorem pop_underflow_leaves_block n σ bs :
  Live σ bs -> stackPointer (stack σ) < n ->
  fault (popStackWithoutBuffer n σ).2 = true /\
  (forall buffer, fault (popStackToBuffer buffer n σ).2 = true) /\
  fault (popStack n σ).2 = true.
Proof.
  intros ((Hblk & Hlen & Hr & Hm & _ & Hal) & _) Hn.
  pose proof (Allocated_lt σ _ _ Hal Hblk) as Hd.
  split; [|split].
  - unfold popStackWithoutBuffer.
    apply (pop_loop_underflow (fun _ => dropByte) σ bs n); try lia; auto.
    + intros _ σ0 j σ1. apply dropByte_popped.
    + intros _ σ1 q blk. apply dropByte_shape.
    + intros _. apply sticky_dropByte.
    + intros _ σ1 blk. apply dropByte_underflow.
  - intros buffer. unfold popStackToBuffer.
    apply (pop_loop_underflow (popByte buffer) σ bs n); try lia; auto.
    + intros i σ0 j σ1. apply popByte_popped.
    + intros i σ1 q blk. apply popByte_shape.
    + apply sticky_popByte.
    + intros i σ1 blk. apply popByte_underflow.
  - unfold popStack, bind, malloc, ret.
    match goal with |- context [popStackToBuffer ?p n ?s] =>
      assert (H : fault (popStackToBuffer p n s).2 = true);
      [| destruct (popStackToBuffer p n s) as [[] σ1]; exact H] end.
    unfold popStackToBuffer.
    apply (pop_loop_underflow (popByte (next σ)) _ bs n); simpl;
      try lia; auto.
    + rewrite lookup_insert_ne by lia. exact Hblk.
    + intros i σ0 j σ1. apply popByte_popped.
    + intros i σ1 q blk. apply popByte_shape.
    + apply sticky_popByte.
    + intros i σ1 blk. apply popByte_underflow.
Qed.

(** *** Contents of the stack across operations *)

Lemma take_cleared lo hi bs :
  (lo <= length bs)%nat -> take lo (cleared lo hi bs) = take lo bs.
Proof.
  intros H. unfold cleared. apply take_app_length'.
  rewrite length_take. lia.
Qed.

Lemma drop_cleared lo hi bs :
  (lo <= hi <= length bs)%nat -> drop hi (cleared lo hi bs) = drop hi bs.
Proof.
  intros H. unfold cleared. rewrite app_assoc.
  apply drop_app_length'.
  rewrite length_app, length_take, length_replicate. lia.
Qed.

(** The top [n] of the [m] live bytes, most recently pushed first. *)
Lemma take_topFirst σ bs n :
  (n <= Z.to_nat (stackPointer (stack σ)) <= length bs)%nat ->
  take n (topFirst σ bs)
  = reverse (take n (drop (Z.to_nat (stackPointer (stack σ)) - n) bs)).
Proof.
  intros H. unfold topFirst. rewrite take_reverse, length_take.
  f_equal. rewrite take_drop_commute. f_equal; [lia|]. f_equal. lia.
Qed.

Lemma Live_popped σ bs n h nx c :
  Live σ bs -> 0 <= n <= stackPointer (stack σ) ->
  map_Forall (fun p (_ : list byte) => (p < nx)%nat) h ->
  (data (stack σ) < nx)%nat ->
  Live (mkWorld (mkStack (dataSize (stack σ)) (stackPointer (stack σ) - n)
                         (data (stack σ)))
                (<[data (stack σ) :=
                     cleared (Z.to_nat (stackPointer (stack σ) - n))
                             (Z.to_nat (stackPointer (stack σ))) bs]> h)
                nx c (fault σ))
       (cleared (Z.to_nat (stackPointer (stack σ) - n))
                (Z.to_nat (stackPointer (stack σ))) bs).
Proof.
  intros ((Hblk & Hlen & Hr & Hm & Hf & Hal) & Hle) Hn Hall Hd.
  unfold Live, Owns. simpl. rewrite lookup_insert_eq.
  rewrite length_cleared by lia.
  split; [|lia].
  split; [reflexivity|]. split; [exact Hlen|]. split; [lia|].
  split; [exact Hm|]. split; [exact Hf|].
  apply map_Forall_insert_2; [exact Hd | exact Hall].
Qed.

(** X7, a push appends.  A push onto a Live stack returns, leaves the
    stack Live, and the live bytes afterwards are the live bytes of before
    followed by the bytes pushed, whether or not the block was
    reallocated; every other block, the input included, holds what it
    held. *)
Theorem push_appends B fuel input bytes σ bs :
  ConfigOK B -> Live σ bs ->
  heap σ !! input = Some bytes -> input <> data (stack σ) ->
  stackPointer (stack σ) + Z.of_nat (length bytes) <= B ->
  (1 <= fuel)%nat ->
  exists σ' bs',
    pushToStack fuel input (Z.of_nat (length bytes)) σ = Some (tt, σ') /\
    Live σ' bs' /\
    stackPointer (stack σ')
      = stackPointer (stack σ) + Z.of_nat (length bytes) /\
    take (Z.to_nat (stackPointer (stack σ'))) bs'
      = take (Z.to_nat (stackPointer (stack σ))) bs ++ bytes /\
    (forall p blk, p <> data (stack σ) -> heap σ !! p = Some blk ->
       heap σ' !! p = Some blk).
Proof.
  intros Hcfg Hlive Hin Hne HB Hfuel.
  destruct (pushToStack_contents B fuel input bytes σ bs Hcfg Hlive Hin Hne HB Hfuel)
    as (σ' & bs' & E & Hl' & Hsp' & Htake & _ & Hk).
  exists σ', bs'. repeat (split; [assumption|]).
  intros p blk Hp Hb. apply (Hk p blk Hp Hb).
Qed.

(** X8, push then slice.  After a push onto a Live stack, the slice from
    the old length to the new length is a copy of the bytes pushed, in the
    order in which they were pushed. *)
Theorem push_slice_roundtrip B fuel input bytes σ bs :
  ConfigOK B -> Live σ bs ->
  heap σ !! input = Some bytes -> input <> data (stack σ) ->
  stackPointer (stack σ) + Z.of_nat (length bytes) <= B ->
  (1 <= fuel)%nat ->
  exists σ',
    pushToStack fuel input (Z.of_nat (length bytes)) σ = Some (tt, σ') /\
    let r := getStackSlice (stackPointer (stack σ))
               (stackPointer (stack σ) + Z.of_nat (length bytes)) σ' in
    heap r.2 !! r.1 = Some bytes /\ fault r.2 = false.
Proof.
  intros Hcfg Hlive Hin Hne HB Hfuel.
  destruct (pushToStack_contents B fuel input bytes σ bs Hcfg Hlive Hin Hne HB Hfuel)
    as (σ' & bs' & E & Hl' & Hsp' & Htake & _ & _).
  exists σ'. split; [exact E|].
  pose proof Hlive as ((_ & Hlen & Hr & _) & Hle).
  pose proof Hl' as ((Hblk' & Hlen' & _ & _ & Hf' & _) & Hle').
  rewrite (getStackSlice_eq _ _ σ' bs' Hl') by lia. simpl.
  rewrite lookup_insert_eq. split; [|exact Hf'].
  f_equal. rewrite Hsp' in Htake.
  replace (Z.to_nat (stackPointer (stack σ) + Z.of_nat (length bytes)
                     - stackPointer (stack σ))) with (length bytes) by lia.
  rewrite take_drop_commute.
  replace (Z.to_nat (stackPointer (stack σ)) + length bytes)%nat
    with (Z.to_nat (stackPointer (stack σ) + Z.of_nat (length bytes))) by lia.
  rewrite Htake. apply drop_app_length'.
  rewrite length_take. lia.
Qed.

(** X14, push then discard.  After a push onto a Live stack, discarding as
    many bytes as were pushed gives a Live stack with the length and the
    live bytes of before the push. *)
Theorem push_popDiscard_restores B fuel input bytes σ bs :
  ConfigOK B -> Live σ bs ->
  heap σ !! input = Some bytes -> input <> data (stack σ) ->
  stackPointer (stack σ) + Z.of_nat (length bytes) <= B ->
  (1 <= fuel)%nat ->
  exists σ1 bs',
    pushToStack fuel input (Z.of_nat (length bytes)) σ = Some (tt, σ1) /\
    let σ2 := (popStackWithoutBuffer (Z.of_nat (length bytes)) σ1).2 in
    Live σ2 bs' /\
    stackPointer (stack σ2) = stackPointer (stack σ) /\
    take (Z.to_nat (stackPointer (stack σ))) bs'
      = take (Z.to_nat (stackPointer (stack σ))) bs.
Proof.
  intros Hcfg Hlive Hin Hne HB Hfuel.
  destruct (pushToStack_contents B fuel input bytes σ bs Hcfg Hlive Hin Hne HB Hfuel)
    as (σ1 & bs1 & E & Hl1 & Hsp1 & Htake & _ & _).
  pose proof Hlive as ((_ & Hlen & Hr & _) & Hle).
  pose proof Hl1 as ((Hblk1 & Hlen1 & _ & _ & _ & Hal1) & Hle1).
  eexists σ1, _. split; [exact E|]. cbv zeta.
  rewrite (popStackWithoutBuffer_eq _ σ1 bs1 Hl1) by lia. simpl.
  split; [|split].
  - apply Live_popped; [exact Hl1 | lia | exact Hal1 |].
    exact (Allocated_lt σ1 _ _ Hal1 Hblk1).
  - lia.
  - replace (stackPointer (stack σ1) - Z.of_nat (length bytes))
      with (stackPointer (stack σ)) by lia.
    rewrite take_cleared by lia.
    replace (Z.to_nat (stackPointer (stack σ)))
      with (Z.to_nat (stackPointer (stack σ))
            `min` Z.to_nat (stackPointer (stack σ1)))%nat at 1 by lia.
    rewrite <- take_take, Htake.
    apply take_app_length'. rewrite length_take. lia.
Qed.

(** X9, what a pop returns and leaves.  On a Live stack holding at least
    [n] bytes, [popStack] returns a block that was not allocated before and
    holds exactly the top [n] bytes, most recently pushed first.  The stack
    stays Live with [n] bytes less, the bytes below the popped ones and the
    bytes beyond the old length are as they were, and so is every other
    block. *)
Theorem pop_top_first n σ bs :
  Live σ bs -> 0 <= n <= stackPointer (stack σ) ->
  let r := popStack n σ in
  let sp := Z.to_nat (stackPointer (stack σ)) in
  heap σ !! r.1 = None /\
  heap r.2 !! r.1
    = Some (reverse (take (Z.to_nat n) (drop (sp - Z.to_nat n) bs))) /\
  stackPointer (stack r.2) = stackPointer (stack σ) - n /\
  (exists bs', Live r.2 bs' /\
     take (sp - Z.to_nat n) bs' = take (sp - Z.to_nat n) bs /\
     drop sp bs' = drop sp bs) /\
  (forall p, p <> r.1 -> p <> data (stack σ) ->
     heap r.2 !! p = heap σ !! p).
Proof.
  intros Hlive Hn. cbv zeta.
  pose proof Hlive as ((Hblk & Hlen & Hr & Hm & Hf & Hal) & Hle).
  pose proof (Allocated_lt σ _ _ Hal Hblk) as Hd.
  rewrite (popStack_eq n σ bs Hlive Hn). simpl.
  split; [apply Allocated_fresh, Hal|].
  split.
  { rewrite lookup_insert_ne by lia. rewrite lookup_insert_eq.
    f_equal. apply take_topFirst. lia. }
  split; [reflexivity|]. split.
  - eexists. split.
    + apply Live_popped; [exact Hlive | exact Hn | | lia].
      apply Allocated_malloc, Hal.
    + replace (Z.to_nat (stackPointer (stack σ) - n))
        with (Z.to_nat (stackPointer (stack σ)) - Z.to_nat n)%nat by lia.
      split; [apply take_cleared; lia | apply drop_cleared; lia].
  - intros p Hp1 Hp2.
    rewrite lookup_insert_ne by congruence.
    apply lookup_insert_ne. congruence.
Qed.

(** X5, popping into a buffer.  On a Live stack holding at least [n]
    bytes, [popStackToBuffer] with a buffer of at least [n] bytes that is
    not the backing store writes the top [n] bytes, most recently pushed
    first, to the first [n] positions of the buffer and leaves the rest of
    the buffer, its size and every other block as they were; no access
    leaves its block. *)
Theorem popInto_contents buffer n σ bs out :
  Live σ bs -> heap σ !! buffer = Some out -> buffer <> data (stack σ) ->
  0 <= n <= stackPointer (stack σ) -> (Z.to_nat n <= length out)%nat ->
  let σ' := (popStackToBuffer buffer n σ).2 in
  let sp := Z.to_nat (stackPointer (stack σ)) in
  (exists out', heap σ' !! buffer = Some out' /\
     take (Z.to_nat n) out'
       = reverse (take (Z.to_nat n) (drop (sp - Z.to_nat n) bs)) /\
     drop (Z.to_nat n) out' = drop (Z.to_nat n) out /\
     length out' = length out) /\
  (forall p, p <> buffer -> p <> data (stack σ) ->
     heap σ' !! p = heap σ !! p) /\
  fault σ' = false.
Proof.
  intros Hlive Hout Hne Hn Hroom. cbv zeta.
  pose proof Hlive as ((Hblk & Hlen & Hr & Hm & Hf & Hal) & Hle).
  rewrite (popStackToBuffer_eq buffer n σ bs out Hlive Hout Hne Hn Hroom).
  simpl.
  assert (Htop : length (topFirst σ bs) = Z.to_nat (stackPointer (stack σ))).
  { unfold topFirst. rewrite length_reverse, length_take. lia. }
  split; [|split; [|exact Hf]].
  - eexists. split.
    + rewrite lookup_insert_ne by congruence. apply lookup_insert_eq.
    + unfold filled. split; [|split].
      * rewrite take_app_length' by (rewrite length_take; lia).
        apply take_topFirst. lia.
      * apply drop_app_length'. rewrite length_take. lia.
      * rewrite length_app, length_take, length_drop. lia.
  - intros p Hp1 Hp2.
    rewrite lookup_insert_ne by congruence.
    apply lookup_insert_ne. congruence.
Qed.

(** X15, the three pops agree.  On a Live stack holding at least [n]
    bytes, the three pop functions leave the same [Stack] object and the
    same backing store: they differ only in where the popped bytes go. *)
Theorem pops_agree buffer n σ bs out :
  Live σ bs -> heap σ !! buffer = Some out -> buffer <> data (stack σ) ->
  0 <= n <= stackPointer (stack σ) -> (Z.to_nat n <= length out)%nat ->
  let discard := (popStackWithoutBuffer n σ).2 in
  let into := (popStackToBuffer buffer n σ).2 in
  let alloc := (popStack n σ).2 in
  stack into = stack discard /\ stack alloc = stack discard /\
  heap into !! data (stack σ) = heap discard !! data (stack σ) /\
  heap alloc !! data (stack σ) = heap discard !! data (stack σ).
Proof.
  intros Hlive Hout Hne Hn Hroom. cbv zeta.
  rewrite (popStackWithoutBuffer_eq n σ bs Hlive Hn).
  rewrite (popStackToBuffer_eq buffer n σ bs out Hlive Hout Hne Hn Hroom).
  rewrite (popStack_eq n σ bs Hlive Hn). simpl.
  rewrite !lookup_insert_eq. auto.
Qed.

(** *** Growth policy *)

(** X10, a push that fits.  When the bytes pushed fit in the capacity, the
    push returns with any fuel and under any configuration, without
    consulting the configuration and without allocating: capacity and
    pointer to the backing store are unchanged, the length grows by the
    count. *)
Theorem push_within_capacity fuel input n σ :
  Counters σ -> 0 <= n ->
  stackPointer (stack σ) + n <= dataSize (stack σ) ->
  exists σ',
    pushToStack fuel input n σ = Some (tt, σ') /\
    stack σ' = mkStack (dataSize (stack σ)) (stackPointer (stack σ) + n)
                       (data (stack σ)) /\
    consults σ' = consults σ /\
    next σ' = next σ.
Proof.
  intros (Hsp & Hds) Hn Hfit. unfold pushToStack.
  cut (forall k, Z.of_nat k <= n ->
         exists σ', forO_ k 0 (fun i => grow fuel ;;? lift (pushByte input i)) σ
                    = Some (tt, σ') /\
           stack σ' = mkStack (dataSize (stack σ))
                              (stackPointer (stack σ) + Z.of_nat k)
                              (data (stack σ)) /\
           consults σ' = consults σ /\ next σ' = next σ).
  { intros H. specialize (H (Z.to_nat n)).
    rewrite Z2Nat.id in H by exact Hn. apply H. lia. }
  intros k Hk.
  apply (forO_inv (fun j σ' =>
    stack σ' = mkStack (dataSize (stack σ))
                       (stackPointer (stack σ) + Z.of_nat j)
                       (data (stack σ)) /\
    consults σ' = consults σ /\ next σ' = next σ)).
  - rewrite Z.add_0_r. destruct (stack σ). auto.
  - intros j σ1 Hj (Es & Ec & En).
    unfold bindO. rewrite grow_done by (rewrite Es; simpl; lia).
    unfold lift.
    destruct (pushByte_counters input (0 + Z.of_nat j) σ1) as (Fs & Fc & Fn).
    destruct (pushByte input (0 + Z.of_nat j) σ1) as [[] σ2]. simpl in *.
    exists σ2. split; [reflexivity|].
    rewrite Fs, Fc, Fn, Es. simpl. rewrite wrap_small by lia.
    split; [|auto]. f_equal. lia.
Qed.

(** One run of the [while] loop on a Live stack: nothing happens when
    there is room, one expansion step is added when the stack is full. *)
Lemma grow_once B fuel σ :
  ConfigOK B -> Counters σ -> stackPointer (stack σ) < B ->
  (1 <= fuel)%nat ->
  exists σ',
    grow fuel σ = Some (tt, σ') /\
    stackPointer (stack σ') = stackPointer (stack σ) /\
    dataSize (stack σ') < modulus /\
    ((stackPointer (stack σ) < dataSize (stack σ) /\ σ' = σ) \/
     (stackPointer (stack σ) = dataSize (stack σ) /\
      consults σ' = S (consults σ) /\
      dataSize (stack σ')
        = stackPointer (stack σ)
          + stackExpansionStepSize (config (consults σ)))).
Proof.
  intros Hcfg (Hsp & Hds) HB Hfuel.
  destruct (decide (stackPointer (stack σ) < dataSize (stack σ))) as [Hlt|Hge].
  - exists σ. rewrite grow_done by exact Hlt.
    split; [reflexivity|]. split; [reflexivity|]. split; [lia|].
    left. split; [exact Hlt | reflexivity].
  - destruct fuel as [|fuel]; [lia|].
    destruct (Hcfg (consults σ)) as (Hpos & Hbound).
    destruct (growStep_counters σ) as (Es & Ec & En).
    rewrite (wrap_small (stackExpansionStepSize _)) in Es by lia.
    rewrite wrap_small in Es by lia.
    exists (growStep σ).2.
    simpl. rewrite decide_True by lia.
    unfold bindO, lift. destruct (growStep σ) as [[] σ1]. simpl in *.
    rewrite grow_done by (rewrite Es; simpl; lia).
    rewrite Es, Ec. simpl.
    split; [reflexivity|]. split; [reflexivity|]. split; [lia|].
    right. split; [lia|]. split; [reflexivity | lia].
Qed.

(** X11, no growth beyond need.  After a push onto a Live stack, either
    the configuration was not consulted and the capacity is unchanged, or
    the capacity exceeds the new length by less than the expansion step
    consulted last: the loop stops growing as soon as the bytes fit. *)
Theorem push_capacity_tight B fuel input n σ :
  ConfigOK B -> Counters σ -> 0 <= n ->
  stackPointer (stack σ) + n <= B -> (1 <= fuel)%nat ->
  exists σ',
    pushToStack fuel input n σ = Some (tt, σ') /\
    stackPointer (stack σ') = stackPointer (stack σ) + n /\
    stackPointer (stack σ') <= dataSize (stack σ') /\
    ((consults σ' = consults σ /\
      dataSize (stack σ') = dataSize (stack σ)) \/
     ((consults σ < consults σ')%nat /\
      dataSize (stack σ')
        < stackPointer (stack σ')
          + stackExpansionStepSize (config (consults σ' - 1)))).
Proof.
  intros Hcfg Hc Hn HB Hfuel. unfold pushToStack.
  cut (forall k, Z.of_nat k <= n ->
         exists σ', forO_ k 0 (fun i => grow fuel ;;? lift (pushByte input i)) σ
                    = Some (tt, σ') /\
           Counters σ' /\
           stackPointer (stack σ') = stackPointer (stack σ) + Z.of_nat k /\
           ((consults σ' = consults σ /\
             dataSize (stack σ') = dataSize (stack σ)) \/
            ((consults σ < consults σ')%nat /\
             dataSize (stack σ')
               < stackPointer (stack σ')
                 + stackExpansionStepSize (config (consults σ' - 1))))).
  { intros H. destruct (H (Z.to_nat n) ltac:(lia)) as (σ' & E & Hc' & Hsp' & Ht).
    exists σ'. rewrite Z2Nat.id in Hsp' by exact Hn.
    split; [exact E|]. split; [exact Hsp'|]. split; [apply Hc' | exact Ht]. }
  intros k Hk.
  apply (forO_inv (fun j σ' =>
    Counters σ' /\
    stackPointer (stack σ') = stackPointer (stack σ) + Z.of_nat j /\
    ((consults σ' = consults σ /\
      dataSize (stack σ') = dataSize (stack σ)) \/
     ((consults σ < consults σ')%nat /\
      dataSize (stack σ')
        < stackPointer (stack σ')
          + stackExpansionStepSize (config (consults σ' - 1)))))).
  - split; [exact Hc|]. split; [lia|]. left. auto.
  - intros j σ1 Hj (Hc1 & Hsp1 & Ht1).
    destruct (grow_once B fuel σ1 Hcfg Hc1 ltac:(lia) Hfuel)
      as (σ2 & E & Hsp2 & Hm2 & Hcase).
    unfold bindO. rewrite E. unfold lift.
    destruct (pushByte_counters input (0 + Z.of_nat j) σ2) as (Es & Ec & _).
    destruct (pushByte input (0 + Z.of_nat j) σ2) as [[] σ3]. simpl in *.
    exists σ3. split; [reflexivity|].
    destruct Hc1 as (Hr1 & Hm1).
    destruct (Hcfg (consults σ1)) as (Hpos & _).
    unfold Counters. rewrite Es, Ec. simpl.
    destruct Hcase as [(Hlt & ->) | (Hfull & Hcons & Hds2)].
    + rewrite wrap_small by lia. split; [lia|]. split; [lia|].
      destruct Ht1 as [(H1 & H2) | (H1 & H2)]; [left; auto | right].
      split; [exact H1 | lia].
    + rewrite wrap_small by lia. split; [lia|]. split; [lia|].
      right. rewrite Hcons.
      replace (S (consults σ1) - 1)%nat with (consults σ1) by lia.
      split; [|lia].
      destruct Ht1 as [(H1 & _) | (H1 & _)]; lia.
Qed.

(** X12, a capacity that wraps.  One turn of the growth loop adds the
    expansion step to the capacity in [unsigned long] arithmetic.  When
    the sum passes [2^w] the new capacity is the sum less [2^w], which is
    below the old capacity, and the reallocated block keeps only that many
    of the bytes of the old one. *)
Theorem growth_overflow_shrinks σ bs :
  Owns σ bs ->
  let step := wrap (stackExpansionStepSize (config (consults σ))) in
  let size := dataSize (stack σ) + step - modulus in
  0 <= size ->
  let σ' := (growStep σ).2 in
  dataSize (stack σ') = size /\
  dataSize (stack σ') < dataSize (stack σ) /\
  stackPointer (stack σ') = stackPointer (stack σ) /\
  heap σ' !! data (stack σ') = Some (take (Z.to_nat size) bs).
Proof.
  intros (Hblk & Hlen & Hr & Hm & _) step size Hsize. cbv zeta.
  pose proof (wrap_range (stackExpansionStepSize (config (consults σ)))) as Hs.
  fold step in Hs.
  assert (Hw : wrap (dataSize (stack σ) + step) = size).
  { unfold wrap, size. symmetry.
    apply Z.mod_unique with (q := 1); lia. }
  rewrite (growStep_eq σ bs Hblk). cbv zeta. fold step. rewrite Hw. simpl.
  split; [reflexivity|]. split; [unfold size; lia|]. split; [reflexivity|].
  rewrite lookup_insert_eq. f_equal. unfold resized.
  replace (Z.to_nat size - length bs)%nat with O by (unfold size; lia).
  apply app_nil_r.
Qed.

Lemma grow_stuck fuel : forall σ,
  (forall k, wrap (stackExpansionStepSize (config k)) = 0) ->
  0 <= dataSize (stack σ) < modulus ->
  dataSize (stack σ) <= stackPointer (stack σ) ->
  grow fuel σ = None.
Proof.
  induction fuel as [|fuel IH]; intros σ Hzero Hds Hfull; simpl;
    rewrite decide_True by exact Hfull; [reflexivity|].
  unfold bindO, lift.
  destruct (growStep_counters σ) as (Es & _).
  rewrite Hzero, Z.add_0_r, wrap_small in Es by exact Hds.
  destruct (growStep σ) as [[] σ1]. simpl in Es.
  apply IH; [exact Hzero | |]; rewrite Es; simpl; assumption.
Qed.

(** X13, an expansion step of zero.  When the configuration answers a step
    that is zero as an [unsigned long] at every consultation, a push of at
    least one byte onto a full stack does not return, however much fuel
    the loop is given: the capacity never gets above the length. *)
Theorem zero_step_diverges fuel input n σ :
  (forall k, wrap (stackExpansionStepSize (config k)) = 0) ->
  0 <= dataSize (stack σ) < modulus ->
  dataSize (stack σ) <= stackPointer (stack σ) ->
  1 <= n ->
  pushToStack fuel input n σ = None.
Proof.
  intros Hzero Hds Hfull Hn. unfold pushToStack.
  destruct (Z.to_nat n) as [|k] eqn:Ek; [lia|].
  simpl. unfold bindO at 1. unfold bindO at 1.
  rewrite (grow_stuck fuel σ Hzero Hds Hfull). reflexivity.
Qed.

Lemma copy_loop_frame slice from k : forall i σ,
  stack (for_ k i (copyByte slice from) σ).2 = stack σ /\
  forall p, p <> slice ->
    heap (for_ k i (copyByte slice from) σ).2 !! p = heap σ !! p.
Proof.
  induction k as [|k IH]; intros i σ; [simpl; auto|].
  simpl. unfold bind.
  assert (H1 : stack (copyByte slice from i σ).2 = stack σ /\
               forall p, p <> slice ->
                 heap (copyByte slice from i σ).2 !! p = heap σ !! p).
  { unfold copyByte, bind, getStack.
    match goal with |- context [load ?p ?j σ] =>
      destruct (load_frame p j σ) as (Ls & _ & _ & Lh);
      destruct (load p j σ) as [b σ1] end.
    simpl in *.
    match goal with |- context [store slice ?j ?c σ1] =>
      destruct (store_frame slice j c σ1) as (Es & _);
      pose proof (store_other slice j c σ1) as Eh end.
    rewrite Es, Ls. split; [reflexivity|].
    intros p Hp. rewrite Eh, Lh by exact Hp. reflexivity. }
  destruct H1 as (Hs & Hh).
  destruct (copyByte slice from i σ) as [[] σ1]. simpl in *.
  destruct (IH (i + 1) σ1) as (Hs' & Hh').
  rewrite Hs', Hs. split; [reflexivity|].
  intros p Hp. rewrite Hh', Hh by exact Hp. reflexivity.
Qed.

(** X17, a slice past the capacity.  On a Live stack, a slice of at least
    one byte whose upper bound exceeds the capacity reads the backing store outside its block:
    the bounds are not checked. *)
Theorem slice_beyond_capacity from to σ bs :
  Live σ bs -> 0 <= from < to -> to < modulus ->
  dataSize (stack σ) < to ->
  fault (getStackSlice from to σ).2 = true.
Proof.
  intros ((Hblk & Hlen & Hr & Hm & _ & Hal) & _) Hft Hto Hbeyond.
  pose proof (Allocated_lt σ _ _ Hal Hblk) as Hd.
  unfold getStackSlice, bind, malloc, ret.
  rewrite (wrap_small (to - from)) by lia.
  match goal with |- context [for_ ?k 0 ?body ?s] =>
    assert (H : fault (for_ k 0 body s).2 = true);
    [| destruct (for_ k 0 body s) as [[] σ1]; exact H] end.
  set (first := Z.to_nat (dataSize (stack σ) - from)).
  assert (Hfirst : Z.of_nat first = Z.max 0 (dataSize (stack σ) - from))
    by (unfold first; lia).
  clearbody first.
  replace (Z.to_nat (to - from))
    with (first + Z.to_nat (to - from - Z.of_nat first))%nat by lia.
  rewrite for_app. unfold bind.
  match goal with |- context [for_ first 0 ?body ?s] =>
    destruct (copy_loop_frame (next σ) from first 0 s) as (Hs & Hh);
    destruct (for_ first 0 body s) as [[] σ1] end.
  simpl in Hs, Hh.
  apply for_first_fault; [apply sticky_copyByte | lia |].
  unfold copyByte, bind, getStack, load.
  rewrite Hs, Hh by lia. rewrite lookup_insert_ne by lia. rewrite Hblk.
  rewrite wrap_small by lia.
  rewrite decide_False by (unfold within; lia).
  apply sticky_store. reflexivity.
Qed.

(** *** The invariant *)

(** X18, calls within the contract are safe.  Any one operation called
    within its contract on a Live stack returns and leaves the stack Live:
    the [Stack] object still owns a block of [capacity] bytes, the length
    is at most the capacity, and no access has left its block. *)
Theorem exec_keeps_live B fuel op σ bs :
  ConfigOK B -> Live σ bs -> inContract B op σ -> (1 <= fuel)%nat ->
  exists σ' bs', exec fuel op σ = Some (tt, σ') /\ Live σ' bs'.
Proof.
  intros Hcfg Hlive Hok Hfuel.
  pose proof Hlive as ((Hblk & Hlen & Hr & Hm & Hf & Hal) & Hle).
  pose proof (Allocated_lt σ _ _ Hal Hblk) as Hd.
  destruct op as [input n|n|buffer n|n|from to]; simpl in *.
  - destruct Hok as (bytes & Hin & -> & Hne & HB).
    destruct (pushToStack_contents B fuel input bytes σ bs Hcfg Hlive Hin Hne HB Hfuel)
      as (σ' & bs' & E & Hl' & _).
    exists σ', bs'. split; assumption.
  - unfold lift. rewrite (popStackWithoutBuffer_eq n σ bs Hlive Hok).
    eexists _, _. split; [reflexivity|].
    apply Live_popped; assumption.
  - destruct Hok as (Hn & out & Hout & Hne & Hroom). unfold lift.
    rewrite (popStackToBuffer_eq buffer n σ bs out Hlive Hout Hne Hn Hroom).
    eexists _, _. split; [reflexivity|].
    apply Live_popped; try assumption.
    exact (Allocated_update σ buffer out _ Hal Hout).
  - unfold lift, bind, ret. rewrite (popStack_eq n σ bs Hlive Hok).
    eexists _, _. split; [reflexivity|].
    apply Live_popped; try assumption; [|lia].
    apply Allocated_malloc, Hal.
  - destruct Hok as (Hft & Hto). unfold lift, bind, ret.
    rewrite (getStackSlice_eq from to σ bs Hlive Hft Hto).
    eexists _, bs. split; [reflexivity|].
    unfold Live, Owns. simpl. rewrite lookup_insert_ne by lia.
    split; [|exact Hle].
    repeat (split; [assumption|]). apply Allocated_malloc, Hal.
Qed.

Lemma cleared_lookup lo hi bs i :
  (lo <= hi <= length bs)%nat ->
  cleared lo hi bs !! i
  = if decide (lo <= i < hi)%nat then Some x00 else bs !! i.
Proof.
  intros H. case_decide as Hi.
  - apply cleared_zero; lia.
  - destruct (decide (i < lo)%nat) as [Hlt|Hge].
    + apply cleared_below. lia.
    + unfold cleared. rewrite app_assoc.
      rewrite lookup_app_r
        by (rewrite length_app, length_take, length_replicate; lia).
      rewrite length_app, length_take, length_replicate, lookup_drop.
      f_equal. lia.
Qed.

Lemma cleared_cleared lo mid hi bs :
  (lo <= mid <= hi)%nat -> (hi <= length bs)%nat ->
  cleared lo mid (cleared mid hi bs) = cleared lo hi bs.
Proof.
  intros H Hhi. apply list_eq. intros i.
  rewrite (cleared_lookup lo mid) by (rewrite length_cleared; lia).
  rewrite !cleared_lookup by lia.
  repeat case_decide; try reflexivity; lia.
Qed.

Lemma cleared_window n hi b bs :
  (b <= n <= hi)%nat -> (hi <= length bs)%nat ->
  take b (drop (n - b) (cleared n hi bs)) = take b (drop (n - b) bs).
Proof.
  intros H Hhi. apply list_eq. intros i.
  destruct (decide (i < b)%nat) as [Hi|Hi].
  - rewrite !lookup_take_lt, !lookup_drop by exact Hi.
    apply cleared_below. lia.
  - rewrite !lookup_take_ge by lia. reflexivity.
Qed.

Lemma take_window_split m a b (bs : list byte) :
  take (a + b) (drop m bs)
  = take b (drop m bs) ++ take a (drop (m + b) bs).
Proof.
  rewrite <- drop_drop, take_take_drop. f_equal. lia.
Qed.

(** The world between two pops: the first pop, and the second pop written
    on the bytes of before the first. *)
Lemma pop_first_then a b σ bs :
  Live σ bs -> 0 <= a -> 0 <= b -> a + b <= stackPointer (stack σ) ->
  let sp := stackPointer (stack σ) in
  let σ1 := (popStack a σ).2 in
  popStack a σ =
    (next σ,
     mkWorld (mkStack (dataSize (stack σ)) (sp - a) (data (stack σ)))
             (<[data (stack σ) := cleared (Z.to_nat (sp - a)) (Z.to_nat sp) bs]>
                (<[next σ := take (Z.to_nat a) (topFirst σ bs)]> (heap σ)))
             (S (next σ)) (consults σ) (fault σ)) /\
  Live σ1 (cleared (Z.to_nat (sp - a)) (Z.to_nat sp) bs) /\
  popStack b σ1 =
    (S (next σ),
     mkWorld (mkStack (dataSize (stack σ)) (sp - a - b) (data (stack σ)))
             (<[data (stack σ) :=
                  cleared (Z.to_nat (sp - (a + b))) (Z.to_nat sp) bs]>
                (<[S (next σ) :=
                     reverse (take (Z.to_nat b)
                                (drop (Z.to_nat (sp - (a + b))) bs))]>
                   (<[data (stack σ) :=
                        cleared (Z.to_nat (sp - a)) (Z.to_nat sp) bs]>
                      (<[next σ := take (Z.to_nat a) (topFirst σ bs)]>
                         (heap σ)))))
             (S (S (next σ))) (consults σ) (fault σ)).
Proof.
  intros Hlive Ha Hb Hab. cbv zeta.
  pose proof Hlive as ((Hblk & Hlen & Hr & Hm & Hf & Hal) & Hle).
  pose proof (Allocated_lt σ _ _ Hal Hblk) as Hd.
  rewrite (popStack_eq a σ bs Hlive) by lia. simpl.
  split; [reflexivity|].
  match goal with |- Live ?s _ /\ _ => set (σ1 := s) end.
  assert (Hl1 : Live σ1 (cleared (Z.to_nat (stackPointer (stack σ) - a))
                           (Z.to_nat (stackPointer (stack σ))) bs)).
  { apply Live_popped; try assumption; [lia | | lia].
    apply Allocated_malloc, Hal. }
  split; [exact Hl1|].
  rewrite (popStack_eq b σ1 _ Hl1) by (simpl; lia).
  unfold σ1. simpl. f_equal. f_equal.
  rewrite take_topFirst by (simpl; rewrite length_cleared; lia).
  simpl. f_equal.
  - replace (Z.to_nat (stackPointer (stack σ) - a - b))
      with (Z.to_nat (stackPointer (stack σ) - (a + b))) by lia.
    apply cleared_cleared; lia.
  - f_equal. f_equal.
    replace (Z.to_nat (stackPointer (stack σ) - a) - Z.to_nat b)%nat
      with (Z.to_nat (stackPointer (stack σ) - (a + b))) by lia.
    replace (Z.to_nat (stackPointer (stack σ) - (a + b)))
      with (Z.to_nat (stackPointer (stack σ) - a) - Z.to_nat b)%nat by lia.
    apply cleared_window; lia.
Qed.

(** X19, popping in two steps.  On a Live stack holding at least [a + b]
    bytes, [popStack a] followed by [popStack b] returns two blocks whose
    contents, one after the other, are the contents of the block that
    [popStack (a + b)] returns, and leaves the same [Stack] object and the
    same backing store. *)
Theorem pop_pop_concat a b σ bs :
  Live σ bs -> 0 <= a -> 0 <= b -> a + b <= stackPointer (stack σ) ->
  let r1 := popStack a σ in
  let r2 := popStack b r1.2 in
  let r := popStack (a + b) σ in
  exists x y,
    heap r2.2 !! r1.1 = Some x /\ heap r2.2 !! r2.1 = Some y /\
    heap r.2 !! r.1 = Some (x ++ y) /\
    stack r2.2 = stack r.2 /\
    heap r2.2 !! data (stack σ) = heap r.2 !! data (stack σ).
Proof.
  intros Hlive Ha Hb Hab. cbv zeta.
  pose proof Hlive as ((Hblk & Hlen & Hr & Hm & Hf & Hal) & Hle).
  pose proof (Allocated_lt σ _ _ Hal Hblk) as Hd.
  destruct (pop_first_then a b σ bs Hlive Ha Hb Hab) as (E1 & Hl1 & E2).
  rewrite E1 in E2 |- *. cbn [fst snd] in E2 |- *. rewrite E2.
  rewrite (popStack_eq (a + b) σ bs Hlive) by lia. simpl.
  eexists _, _.
  split.
  { rewrite lookup_insert_ne by lia. rewrite lookup_insert_ne by lia.
    rewrite lookup_insert_ne by lia. apply lookup_insert_eq. }
  split.
  { rewrite lookup_insert_ne by lia. apply lookup_insert_eq. }
  split.
  { rewrite lookup_insert_ne by lia. rewrite lookup_insert_eq. f_equal.
    rewrite (take_topFirst σ bs (Z.to_nat a)) by lia.
    rewrite (take_topFirst σ bs (Z.to_nat (a + b))) by lia.
    rewrite <- reverse_app. f_equal.
    set (sp := Z.to_nat (stackPointer (stack σ))) in *.
    replace (Z.to_nat (a + b)) with (Z.to_nat a + Z.to_nat b)%nat by lia.
    rewrite take_window_split.
    f_equal; f_equal; f_equal; unfold sp; lia. }
  split; [f_equal; lia|].
  rewrite !lookup_insert_eq. reflexivity.
Qed.

End Program.

(** ** More of the concrete run *)

Definition exampleOps : list Op :=
  [Push 1 3; Pop 2; PopDiscard 1; Slice 0 4; Push 1 3].

(** A caller with "AB" in block 0 and "CDE" in block 1. *)
Definition exampleCaller : World :=
  mkWorld (mkStack 0 0 0)
          (<[0%nat := ["A"; "B"]%byte]> (<[1%nat := ["C"; "D"; "E"]%byte]> ∅))
          2 0 false.

(** The scenario of the specification: create, push "AB", push "CDE",
    pop 3 bytes, slice [0, 2). *)
Definition scenario : MO (nat * nat) :=
  (lift (create 64 exampleConfig exampleJunk exampleOrder) ;;?
   pushToStack 64 exampleConfig exampleJunk 1 0 2 ;;?
   pushToStack 64 exampleConfig exampleJunk 1 1 3 ;;?
   lift (p <- popStack 64 exampleJunk 3 ;;
         q <- getStackSlice 64 exampleJunk 0 2 ;;
         ret (p, q)))%monad.

(** ** The concrete run satisfies the hypotheses of the theorems *)

Lemma exampleConfig_ok : ConfigOK 64 exampleConfig 1000.
Proof. intros k. unfold modulus. simpl. lia. Qed.

Lemma exampleWorld_allocated : Allocated exampleWorld.
Proof.
  unfold Allocated. apply (bool_decide_unpack _). vm_compute. exact I.
Qed.

Lemma exampleWorld_live :
  Live 64 exampleWorld ["A"; "B"; "?"; "?"]%byte.
Proof.
  split; [|simpl; lia].
  repeat (split; [first [reflexivity | unfold modulus; simpl; lia]|]).
  exact exampleWorld_allocated.
Qed.

Lemma exampleFull_live :
  Live 64 exampleFull ["A"; "B"; "C"; "D"]%byte.
Proof.
  split; [|simpl; lia].
  repeat (split; [first [reflexivity | unfold modulus; simpl; lia]|]).
  unfold Allocated. apply (bool_decide_unpack _). vm_compute. exact I.
Qed.

(** ** The theorems at the concrete run *)

Lemma push_pop_roundtrip_witness :
  exists σ1,
    pushToStack 64 exampleConfig exampleJunk 1 1 3 exampleWorld = Some (tt, σ1) /\
    let r := popStack 64 exampleJunk 3 σ1 in
    heap r.2 !! r.1 = Some ["E"; "D"; "C"]%byte /\
    heap σ1 !! r.1 = None /\
    stackPointer (stack r.2) = 2 /\
    fault r.2 = false.
Proof.
  apply (push_pop_roundtrip 64 exampleConfig exampleJunk 1000 1 1
           ["C"; "D"; "E"]%byte exampleWorld ["A"; "B"; "?"; "?"]%byte).
  - exact exampleConfig_ok.
  - exact exampleWorld_live.
  - reflexivity.
  - simpl. lia.
  - simpl. lia.
  - lia.
Defined.

Lemma length_invariant_witness :
  exists σ',
    (lift (create 64 exampleConfig exampleJunk exampleOrder)
       ;;? run 64 exampleConfig exampleJunk 1 exampleOps)%monad exampleStart
      = Some (tt, σ') /\
    stackPointer (stack σ') = 6 - 3 /\
    0 <= stackPointer (stack σ') <= dataSize (stack σ').
Proof.
  apply (length_invariant 64 exampleConfig exampleJunk exampleOrder 1000 1
           exampleOps
           exampleStart 5).
  - exact exampleConfig_ok.
  - simpl. lia.
  - lia.
Defined.

Lemma push_growth_witness :
  (exists σ' bs',
     grow 64 exampleConfig exampleJunk 1 exampleFull = Some (tt, σ') /\
     stackPointer (stack σ') = 4 /\
     stackPointer (stack σ') < dataSize (stack σ') /\
     dataSize (stack σ') = 4 + (4 + 0) /\
     consults σ' = 3%nat /\
     heap σ' !! data (stack σ') = Some bs' /\
     Z.of_nat (length bs') = dataSize (stack σ') /\
     ["A"; "B"; "C"; "D"]%byte `prefix_of` bs' /\
     (forall i, 0 <= i < 4 -> i < 4 ->
        bs' !! Z.to_nat i = ["A"; "B"; "C"; "D"]%byte !! Z.to_nat i) /\
     fault σ' = false) /\
  (exists σ' bs' g,
     pushToStack 64 exampleConfig exampleJunk 1 1 3 exampleWorld
       = Some (tt, σ') /\
     Live 64 σ' bs' /\
     consults σ' = (2 + g)%nat /\
     dataSize (stack σ') = 4 + steps exampleConfig 2 g /\
     stackPointer (stack σ') = 2 + 3 /\
     take 2 bs' = ["A"; "B"]%byte /\
     take (Z.to_nat (stackPointer (stack σ'))) bs'
       = ["A"; "B"; "C"; "D"; "E"]%byte) /\
  (exists σj σg bsg,
     pushToStack 64 exampleConfig exampleJunk 1 1 2 exampleWorld
       = Some (tt, σj) /\
     grow 64 exampleConfig exampleJunk 1 σj = Some (tt, σg) /\
     pushToStack 64 exampleConfig exampleJunk 1 1 (2 + 1) exampleWorld
       = Some (pushByte 64 1 2 σg) /\
     stackPointer (stack σg) < dataSize (stack σg) /\
     heap σg !! data (stack σg) = Some bsg /\
     take 4 bsg = ["A"; "B"; "C"; "D"]%byte).
Proof.
  destruct (push_growth 64 exampleConfig exampleJunk) as (Hloop & Hpush).
  split; [|split].
  - apply (Hloop 1%nat 1%nat exampleFull ["A"; "B"; "C"; "D"]%byte).
    + exact (proj1 exampleFull_live).
    + intros k. simpl. lia.
    + intros j Hj. replace j with O by lia. simpl. lia.
    + simpl. lia.
    + unfold modulus. simpl. lia.
    + lia.
  - refine (proj2 (Hpush 1000 1%nat 1%nat ["C"; "D"; "E"]%byte exampleWorld
                     ["A"; "B"; "?"; "?"]%byte exampleConfig_ok
                     exampleWorld_live eq_refl _ _ _)).
    + simpl. lia.
    + simpl. lia.
    + lia.
  - destruct (proj1 (Hpush 1000 1%nat 1%nat ["C"; "D"; "E"]%byte exampleWorld
                       ["A"; "B"; "?"; "?"]%byte exampleConfig_ok
                       exampleWorld_live eq_refl ltac:(simpl; lia)
                       ltac:(simpl; lia) ltac:(lia)) 2%nat ltac:(simpl; lia))
      as (σj & bsj & σg & bsg & Ej & _ & Eg & Es & _ & Hlt & _ & Hblk & _ & _
          & Htake & _).
    exists σj, σg, bsg.
    repeat (split; [assumption|]). exact Htake.
Defined.

Lemma slice_forward_witness :
  let r := getStackSlice 64 exampleJunk 0 2 exampleWorld in
  heap exampleWorld !! r.1 = None /\
  exists out,
    heap r.2 !! r.1 = Some out /\
    Z.of_nat (length out) = 2 - 0 /\
    (forall i, 0 <= i < 2 - 0 ->
       out !! Z.to_nat i = ["A"; "B"; "?"; "?"]%byte !! Z.to_nat (0 + i)) /\
    fault r.2 = false.
Proof.
  apply (slice_forward 64 exampleJunk 0 2 exampleWorld).
  - exact exampleWorld_live.
  - lia.
  - simpl. lia.
Defined.

Lemma zero_on_pop_witness :
  vacated 64 exampleJunk 2 exampleWorld
    (popStackWithoutBuffer 64 2 exampleWorld).2 /\
  (forall buffer out,
     heap exampleWorld !! buffer = Some out ->
     buffer <> data (stack exampleWorld) ->
     (Z.to_nat 2 <= length out)%nat ->
     vacated 64 exampleJunk 2 exampleWorld
       (popStackToBuffer 64 buffer 2 exampleWorld).2) /\
  vacated 64 exampleJunk 2 exampleWorld (popStack 64 exampleJunk 2 exampleWorld).2.
Proof.
  apply (zero_on_pop 64 exampleJunk 2 exampleWorld ["A"; "B"; "?"; "?"]%byte).
  - exact exampleWorld_live.
  - simpl. lia.
Defined.

Lemma pop_underflow_witness :
  stackPointer (stack (popStackWithoutBuffer 64 5 exampleWorld).2)
    = 18446744073709551613 /\
  stackPointer (stack (popStackToBuffer 64 1 5 exampleWorld).2)
    = 18446744073709551613 /\
  stackPointer (stack (popStack 64 exampleJunk 5 exampleWorld).2)
    = 18446744073709551613.
Proof.
  apply (pop_underflow 64 exampleJunk 5 1 exampleWorld).
  - unfold modulus. simpl. lia.
  - unfold modulus. simpl. lia.
Defined.

Lemma slice_read_only_witness :
  let r := getStackSlice 64 exampleJunk 1 3 exampleWorld in
  stack r.2 = stack exampleWorld /\
  heap r.2 !! data (stack exampleWorld) = Some ["A"; "B"; "?"; "?"]%byte.
Proof.
  pose proof (slice_read_only 64 exampleJunk 1 3 exampleWorld
                ["A"; "B"; "?"; "?"]%byte exampleWorld_live
                ltac:(lia) ltac:(simpl; lia)) as (H1 & H2 & _).
  exact (conj H1 H2).
Defined.

Lemma pop_keeps_capacity_witness :
  dataSize (stack (popStack 64 exampleJunk 1 exampleWorld).2) = 4 /\
  data (stack (popStack 64 exampleJunk 1 exampleWorld).2) = 0%nat /\
  consults (popStack 64 exampleJunk 1 exampleWorld).2 = 2%nat.
Proof.
  apply (pop_keeps_capacity 64 exampleJunk 1 1 exampleWorld).
  - simpl. lia.
  - unfold modulus. simpl. lia.
Defined.

Lemma capacity_never_shrinks_witness :
  exists σ',
    exec 64 exampleConfig exampleJunk 1 (Push 1 3) exampleWorld = Some (tt, σ') /\
    4 <= dataSize (stack σ').
Proof.
  destruct (capacity_never_shrinks 64 exampleConfig exampleJunk (Push 1 3)
              exampleWorld ["A"; "B"; "?"; "?"]%byte exampleWorld_live)
    as (Hmono & Hret).
  destruct (Hret 1000 1%nat exampleConfig_ok ltac:(simpl; lia) ltac:(lia))
    as (σ' & E).
  exists σ'. split; [exact E|]. exact (Hmono 1%nat σ' E).
Defined.

(** ** The scenario of the specification, run *)

Example scenario_run :
  match scenario exampleCaller with
  | Some ((p, q), σ) =>
      stack σ = mkStack 8 2 3 /\
      heap σ !! p = Some ["E"; "D"; "C"]%byte /\
      heap σ !! q = Some ["A"; "B"]%byte /\
      heap σ !! 3%nat
        = Some ["A"; "B"; x00; x00; x00; "?"; "?"; "?"]%byte /\
      consults σ = 3%nat /\
      fault σ = false
  | None => False
  end.
Proof. vm_compute. repeat split; reflexivity. Qed.

(** With an expansion step of one byte, a push of three bytes onto a full
    stack reallocates three times within the one call. *)
Example three_growths :
  match pushToStack 64 (fun _ => mkConfig 4 1) exampleJunk 1 1 3
          (mkWorld (mkStack 4 4 0)
             (<[0%nat := ["A"; "B"; "C"; "D"]%byte]>
                (<[1%nat := ["E"; "F"; "G"]%byte]> ∅)) 2 2 false) with
  | Some (_, σ) =>
      stack σ = mkStack 7 7 4 /\
      heap σ !! 4%nat = Some ["A"; "B"; "C"; "D"; "E"; "F"; "G"]%byte /\
      consults σ = 5%nat /\
      fault σ = false
  | None => False
  end.
Proof. vm_compute. repeat split; reflexivity. Qed.

(** A pop of more bytes than the stack holds writes outside the block. *)
Example underflow_faults :
  fault (popStackWithoutBuffer 64 5 exampleWorld).2 = true.
Proof. vm_compute. reflexivity. Qed.

(** The bound of [ConfigOK] is needed.  When a step is so large that the
    new capacity wraps around, [realloc] is asked for a smaller block and
    bytes of the stack are cut off: here "C" and "D" are gone after the
    push of "E". *)
Example overflow_truncates :
  match pushToStack 64
          (fun k => mkConfig 4 (if (k =? 2)%nat then 2 ^ 64 - 2 else 3))
          exampleJunk 2 1 1
          (mkWorld (mkStack 4 4 0)
             (<[0%nat := ["A"; "B"; "C"; "D"]%byte]>
                (<[1%nat := ["E"]%byte]> ∅)) 2 2 false) with
  | Some (_, σ) =>
      stack σ = mkStack 5 5 3 /\
      heap σ !! 3%nat = Some ["A"; "B"; "?"; "?"; "E"]%byte /\
      fault σ = false
  | None => False
  end.
Proof. vm_compute. repeat split; reflexivity. Qed.

(** ** The further properties at the concrete run *)

(** A configuration whose expansion step makes the capacity wrap. *)
Definition exampleHuge : nat -> Config := fun _ => mkConfig 4 (2 ^ 64 - 2).

(** A configuration whose expansion step is zero. *)
Definition exampleZero : nat -> Config := fun _ => mkConfig 4 0.

Lemma exampleStart_allocated : Allocated exampleStart.
Proof.
  unfold Allocated. apply (bool_decide_unpack _). vm_compute. exact I.
Qed.

Lemma exampleWorld_counters : Counters 64 exampleWorld.
Proof. unfold Counters, modulus. simpl. lia. Qed.

Lemma create_live_witness :
  exists bs, Live 64 (create 64 exampleConfig exampleJunk exampleOrder exampleStart).2 bs.
Proof.
  pose proof (create_live 64 exampleConfig exampleJunk exampleOrder exampleStart
                exampleStart_allocated eq_refl) as H.
  cbv zeta in H. apply H. reflexivity.
Defined.

Lemma destroy_frees_witness :
  heap (destroyStack exampleWorld).2 !! 0%nat = None /\
  fault (destroyStack (destroyStack exampleWorld).2).2 = true.
Proof.
  pose proof (destroy_frees 64 exampleWorld _ exampleWorld_live)
    as (H1 & _ & _ & _ & H2).
  exact (conj H1 H2).
Defined.

Lemma create_destroy_restores_witness :
  heap ((create 64 exampleConfig exampleJunk exampleOrder ;; destroyStack)%monad
          exampleStart).2 = heap exampleStart.
Proof.
  exact (proj1 (create_destroy_restores 64 exampleConfig exampleJunk exampleOrder
                  exampleStart exampleStart_allocated)).
Defined.

Lemma use_after_destroy_witness :
  fault (popStack 64 exampleJunk 1 (destroyStack exampleWorld).2).2 = true.
Proof.
  pose proof (use_after_destroy 64 exampleConfig exampleJunk 1 exampleWorld _
                exampleWorld_live ltac:(lia)) as (_ & _ & H & _).
  exact H.
Defined.

Lemma popInto_contents_witness :
  exists out',
    heap (popStackToBuffer 64 1 2 exampleWorld).2 !! 1%nat = Some out' /\
    take 2 out' = ["B"; "A"]%byte /\
    drop 2 out' = ["E"]%byte /\
    length out' = 3%nat.
Proof.
  exact (proj1 (popInto_contents 64 1 2 exampleWorld
                  ["A"; "B"; "?"; "?"]%byte ["C"; "D"; "E"]%byte
                  exampleWorld_live eq_refl ltac:(simpl; lia)
                  ltac:(simpl; lia) ltac:(simpl; lia))).
Defined.

Lemma popDiscard_additive_witness :
  (popStackWithoutBuffer 64 1 ;; popStackWithoutBuffer 64 1)%monad exampleWorld
  = popStackWithoutBuffer 64 (1 + 1) exampleWorld.
Proof.
  apply (popDiscard_additive 64 1 1 exampleWorld); lia.
Defined.

Lemma push_appends_witness :
  exists σ' bs',
    pushToStack 64 exampleConfig exampleJunk 1 1 3 exampleWorld
      = Some (tt, σ') /\
    Live 64 σ' bs' /\
    stackPointer (stack σ') = 2 + 3 /\
    take (Z.to_nat (stackPointer (stack σ'))) bs'
      = ["A"; "B"; "C"; "D"; "E"]%byte /\
    (forall p blk, p <> 0%nat -> heap exampleWorld !! p = Some blk ->
       heap σ' !! p = Some blk).
Proof.
  apply (push_appends 64 exampleConfig exampleJunk 1000 1 1
           ["C"; "D"; "E"]%byte exampleWorld ["A"; "B"; "?"; "?"]%byte).
  - exact exampleConfig_ok.
  - exact exampleWorld_live.
  - reflexivity.
  - simpl. lia.
  - simpl. lia.
  - lia.
Defined.

Lemma push_slice_roundtrip_witness :
  exists σ',
    pushToStack 64 exampleConfig exampleJunk 1 1 3 exampleWorld
      = Some (tt, σ') /\
    let r := getStackSlice 64 exampleJunk 2 (2 + 3) σ' in
    heap r.2 !! r.1 = Some ["C"; "D"; "E"]%byte /\ fault r.2 = false.
Proof.
  apply (push_slice_roundtrip 64 exampleConfig exampleJunk 1000 1 1
           ["C"; "D"; "E"]%byte exampleWorld ["A"; "B"; "?"; "?"]%byte).
  - exact exampleConfig_ok.
  - exact exampleWorld_live.
  - reflexivity.
  - simpl. lia.
  - simpl. lia.
  - lia.
Defined.

Lemma push_popDiscard_restores_witness :
  exists σ1 bs',
    pushToStack 64 exampleConfig exampleJunk 1 1 3 exampleWorld
      = Some (tt, σ1) /\
    let σ2 := (popStackWithoutBuffer 64 3 σ1).2 in
    Live 64 σ2 bs' /\
    stackPointer (stack σ2) = 2 /\
    take 2 bs' = ["A"; "B"]%byte.
Proof.
  apply (push_popDiscard_restores 64 exampleConfig exampleJunk 1000 1 1
           ["C"; "D"; "E"]%byte exampleWorld ["A"; "B"; "?"; "?"]%byte).
  - exact exampleConfig_ok.
  - exact exampleWorld_live.
  - reflexivity.
  - simpl. lia.
  - simpl. lia.
  - lia.
Defined.

Lemma pop_top_first_witness :
  let r := popStack 64 exampleJunk 2 exampleWorld in
  heap exampleWorld !! r.1 = None /\
  heap r.2 !! r.1 = Some ["B"; "A"]%byte.
Proof.
  pose proof (pop_top_first 64 exampleJunk 2 exampleWorld _
                exampleWorld_live ltac:(simpl; lia)) as (H1 & H2 & _).
  exact (conj H1 H2).
Defined.

Lemma push_within_capacity_witness :
  exists σ',
    pushToStack 64 exampleConfig exampleJunk 0 1 2 exampleWorld
      = Some (tt, σ') /\
    stack σ' = mkStack 4 (2 + 2) 0 /\
    consults σ' = 2%nat /\
    next σ' = 2%nat.
Proof.
  apply (push_within_capacity 64 exampleConfig exampleJunk 0 1 2 exampleWorld).
  - exact exampleWorld_counters.
  - lia.
  - simpl. lia.
Defined.

Lemma push_capacity_tight_witness :
  exists σ',
    pushToStack 64 exampleConfig exampleJunk 1 1 3 exampleWorld
      = Some (tt, σ') /\
    stackPointer (stack σ') = 2 + 3 /\
    stackPointer (stack σ') <= dataSize (stack σ') /\
    ((consults σ' = 2%nat /\ dataSize (stack σ') = 4) \/
     ((2 < consults σ')%nat /\
      dataSize (stack σ') < stackPointer (stack σ') + 4)).
Proof.
  apply (push_capacity_tight 64 exampleConfig exampleJunk 1000 1 1 3
           exampleWorld).
  - exact exampleConfig_ok.
  - exact exampleWorld_counters.
  - lia.
  - simpl. lia.
  - lia.
Defined.

Lemma growth_overflow_shrinks_witness :
  let σ' := (growStep 64 exampleHuge exampleJunk exampleFull).2 in
  dataSize (stack σ') = 2 /\
  dataSize (stack σ') < 4 /\
  stackPointer (stack σ') = 4 /\
  heap σ' !! data (stack σ') = Some ["A"; "B"]%byte.
Proof.
  apply (growth_overflow_shrinks 64 exampleHuge exampleJunk exampleFull
           ["A"; "B"; "C"; "D"]%byte).
  - exact (proj1 exampleFull_live).
  - vm_compute. discriminate.
Defined.

Lemma zero_step_diverges_witness :
  pushToStack 64 exampleZero exampleJunk 1000 1 1 exampleFull = None.
Proof.
  apply (zero_step_diverges 64 exampleZero exampleJunk 1000 1 1 exampleFull).
  - intros k. reflexivity.
  - unfold modulus. simpl. lia.
  - simpl. lia.
  - lia.
Defined.

Lemma pops_agree_witness :
  stack (popStackToBuffer 64 1 2 exampleWorld).2
    = stack (popStackWithoutBuffer 64 2 exampleWorld).2 /\
  stack (popStack 64 exampleJunk 2 exampleWorld).2
    = stack (popStackWithoutBuffer 64 2 exampleWorld).2.
Proof.
  pose proof (pops_agree 64 exampleJunk 1 2 exampleWorld
                ["A"; "B"; "?"; "?"]%byte ["C"; "D"; "E"]%byte
                exampleWorld_live eq_refl ltac:(simpl; lia)
                ltac:(simpl; lia) ltac:(simpl; lia)) as (H1 & H2 & _).
  exact (conj H1 H2).
Defined.

Lemma pop_underflow_leaves_block_witness :
  fault (popStackWithoutBuffer 64 5 exampleWorld).2 = true /\
  (forall buffer, fault (popStackToBuffer 64 buffer 5 exampleWorld).2 = true) /\
  fault (popStack 64 exampleJunk 5 exampleWorld).2 = true.
Proof.
  apply (pop_underflow_leaves_block 64 exampleJunk 5 exampleWorld
           ["A"; "B"; "?"; "?"]%byte).
  - exact exampleWorld_live.
  - simpl. lia.
Defined.

Lemma slice_beyond_capacity_witness :
  fault (getStackSlice 64 exampleJunk 0 5 exampleWorld).2 = true.
Proof.
  apply (slice_beyond_capacity 64 exampleJunk 0 5 exampleWorld
           ["A"; "B"; "?"; "?"]%byte).
  - exact exampleWorld_live.
  - lia.
  - unfold modulus. simpl. lia.
  - simpl. lia.
Defined.

Lemma exec_keeps_live_witness :
  exists σ' bs',
    exec 64 exampleConfig exampleJunk 1 (Push 1 3) exampleWorld
      = Some (tt, σ') /\
    Live 64 σ' bs'.
Proof.
  apply (exec_keeps_live 64 exampleConfig exampleJunk 1000 1 (Push 1 3)
           exampleWorld ["A"; "B"; "?"; "?"]%byte).
  - exact exampleConfig_ok.
  - exact exampleWorld_live.
  - exists ["C"; "D"; "E"]%byte. simpl.
    split; [reflexivity|]. split; [reflexivity|]. split; lia.
  - lia.
Defined.

Lemma pop_pop_concat_witness :
  let r1 := popStack 64 exampleJunk 1 exampleWorld in
  let r2 := popStack 64 exampleJunk 1 r1.2 in
  let r := popStack 64 exampleJunk (1 + 1) exampleWorld in
  exists x y,
    heap r2.2 !! r1.1 = Some x /\ heap r2.2 !! r2.1 = Some y /\
    heap r.2 !! r.1 = Some (x ++ y) /\
    stack r2.2 = stack r.2 /\
    heap r2.2 !! data (stack exampleWorld)
      = heap r.2 !! data (stack exampleWorld).
Proof.
  apply (pop_pop_concat 64 exampleJunk 1 1 exampleWorld
           ["A"; "B"; "?"; "?"]%byte).
  - exact exampleWorld_live.
  - lia.
  - lia.
  - simpl. lia.
Defined.

(** The two orders in which [newStack] may consult a configuration that
    changes between the consultations, 4 and then 8: the capacity is 4 over
    a block of 8 bytes, or 8 over a block of 4 bytes. *)
Example create_orders :
  let changing := fun k => mkConfig (if (k =? 0)%nat then 4 else 8) 4 in
  let made order := (create 64 changing exampleJunk order exampleStart).2 in
  let block σ := length <$> heap σ !! data (stack σ) in
  (dataSize (stack (made (fun _ => true))) = 4 /\
   block (made (fun _ => true)) = Some 8%nat) /\
  (dataSize (stack (made (fun _ => false))) = 8 /\
   block (made (fun _ => false)) = Some 4%nat).
Proof. vm_compute. repeat split; reflexivity. Qed.
